(** * KORRA: the framed socket transport and the worker pool

    A shallow embedding of [c/net/transport.c] (with [c/include/transport.h])
    and of [c/core/thread.c] (with [c/include/thread.h]), and the properties
    of the wire protocol and of the bounded task queue proved about them.

    Conventions.
    - C integers are [Z]; a field of type [uintN_t] holds a value in
      [0, 2^N).  The comparisons of a [ssize_t] with [sizeof(header)] or with
      a [uint32_t] are the mathematical ones (LP64: both operands convert to a
      64-bit type in which -1 differs from every length the code compares to).
    - An object in memory is the list of its bytes.  [transport_header_t] has
      the layout every ABI with natural alignment gives it: 12 bytes, fields
      at offsets 0, 4, 5, 6 and 8, no padding; that layout is what [send] and
      [recv] see, in the byte order of the host.
    - Calls that leave the program ([send], [recv], [malloc], [free], the
      diagnostics on stderr) are the nodes of a call tree; what the outside
      answers is given by an oracle, so every theorem holds for every
      behaviour of the socket and of the allocator it does not constrain. *)

From Stdlib Require Import ZArith Lia Bool.
From Stdlib.Strings Require Import Byte.
From stdpp Require Import base option list gmap strings.

Local Open Scope Z_scope.

(* ===================================================================== *)
(** ** Bytes and integers in memory *)
(* ===================================================================== *)

Module Wire.

Inductive endianness := LittleEndian | BigEndian.

Definition Z_of_byte (b : byte) : Z := Z.of_N (Byte.to_N b).

Definition byte_of_Z (z : Z) : byte :=
  match Byte.of_N (Z.to_N (z mod 256)) with
  | Some b => b
  | None => x00
  end.

(** The [n] low-order bytes of [v], least significant first. *)
Fixpoint le_bytes (n : nat) (v : Z) : list byte :=
  match n with
  | O => []
  | S n' => byte_of_Z v :: le_bytes n' (Z.shiftr v 8)
  end.

Fixpoint le_value (bs : list byte) : Z :=
  match bs with
  | [] => 0
  | b :: bs' => Z.lor (Z_of_byte b) (Z.shiftl (le_value bs') 8)
  end.

(** An [n]-byte unsigned integer as the host keeps it in memory. *)
Definition store_uint (e : endianness) (n : nat) (v : Z) : list byte :=
  match e with
  | LittleEndian => le_bytes n v
  | BigEndian => rev (le_bytes n v)
  end.

Definition load_uint (e : endianness) (bs : list byte) : Z :=
  match e with
  | LittleEndian => le_value bs
  | BigEndian => le_value (rev bs)
  end.

(** Network byte order: most significant byte first, whatever the host. *)
Definition network_order (n : nat) (v : Z) : list byte := rev (le_bytes n v).

End Wire.

(* ===================================================================== *)
(** ** transport.h *)
(* ===================================================================== *)

Module Hdr.
(** [transport_header_t] *)
Record t := mk {
  magic : Z;          (* uint32_t *)
  version : Z;        (* uint8_t  *)
  msg_type : Z;       (* uint8_t  *)
  reserved : Z;       (* uint16_t *)
  payload_size : Z    (* uint32_t *)
}.
End Hdr.

Module Msg.
(** [transport_message_t]; [payload] is a pointer, 0 is NULL. *)
Record t := mk {
  msg_type : Z;       (* uint8_t  *)
  payload_size : Z;   (* uint32_t *)
  payload : Z         (* void*    *)
}.
End Msg.

Module Transport.
Import Wire.

Abbreviation transport_header_t := Hdr.t.
Abbreviation transport_message_t := Msg.t.

Definition KORRA_PROTOCOL_VERSION : Z := 1.
Definition KORRA_MSG_MAGIC : Z := 0x4B525241.

(** [message_type_t] *)
Definition MSG_HEARTBEAT : Z := 0.
Definition MSG_AGENT_REGISTER : Z := 1.
Definition MSG_AGENT_UPDATE : Z := 2.
Definition MSG_JOB_SUBMIT : Z := 3.
Definition MSG_JOB_RESULT : Z := 4.
Definition MSG_STATE_SYNC : Z := 5.
Definition MSG_NODE_INFO : Z := 6.
Definition MSG_ERROR : Z := 255.

(** [sizeof(transport_header_t)] *)
Definition sizeof_header : Z := 12.

(** The object representation of a header: what [send(fd, &header, ...)]
    reads from memory. *)
Definition header_bytes (e : endianness) (h : transport_header_t) : list byte :=
  store_uint e 4 (Hdr.magic h)
  ++ [byte_of_Z (Hdr.version h)]
  ++ [byte_of_Z (Hdr.msg_type h)]
  ++ store_uint e 2 (Hdr.reserved h)
  ++ store_uint e 4 (Hdr.payload_size h).

(** The header that [recv(fd, &header, ...)] leaves in memory. *)
Definition header_of_bytes (e : endianness) (bs : list byte) : transport_header_t :=
  {| Hdr.magic := load_uint e (take 4 bs);
     Hdr.version := load_uint e (take 1 (drop 4 bs));
     Hdr.msg_type := load_uint e (take 1 (drop 5 bs));
     Hdr.reserved := load_uint e (take 2 (drop 6 bs));
     Hdr.payload_size := load_uint e (take 4 (drop 8 bs)) |}.

(** [transport_socket_t]; the [address] field is only touched by
    [transport_init] and is left out. *)
Record transport_socket_t := {
  socket_fd : Z;
  is_server : bool;
  is_connected : bool
}.

(** The state the two functions work on: the file-level [transport_socket]
    and the blocks of the heap that are live. *)
Record state := {
  transport_socket : transport_socket_t;
  heap : gmap Z (list byte)
}.

Definition set_connected (b : bool) (st : state) : state :=
  {| transport_socket :=
       {| socket_fd := socket_fd (transport_socket st);
          is_server := is_server (transport_socket st);
          is_connected := b |};
     heap := heap st |}.

Definition set_heap (hp : gmap Z (list byte)) (st : state) : state :=
  {| transport_socket := transport_socket st; heap := hp |}.

Definition NULL : Z := 0.

(** The bytes a pointer points to: the block it is the base of; NULL
    points to none. *)
Definition deref (hp : gmap Z (list byte)) (p : Z) : list byte :=
  if p =? NULL then [] else default [] (hp !! p).

(** *** Calls to the outside *)

(** The diagnostics written to stderr by [DEBUG_LOG] (as built without
    NDEBUG; with it those lines are compiled out and nothing else changes)
    and by [perror]. *)
Inductive diag :=
| log_cannot_send
| log_send_header_failed
| log_send_payload_failed
| log_sent (msg_type size : Z)
| log_cannot_receive
| log_closed_by_peer
| log_recv_header_failed
| log_invalid_magic (magic : Z)
| log_unsupported_version (version : Z)
| log_alloc_failed (size : Z)
| log_closed_during_payload
| log_recv_payload_failed
| log_received (msg_type size : Z).

Inductive syscall :=
| send (sockfd : Z) (buf : list byte) (len : Z)
    (* [buf]: the bytes of the object the buffer argument points to *)
| recv (sockfd : Z) (len : Z)
| malloc (size : Z)
| free (ptr : Z)
| stderr (d : diag).

(** What a call gives back: [send] its return value; [recv] the bytes it
    stored ([None] for the return value -1); [malloc] a pointer. *)
Definition answer (c : syscall) : Type :=
  match c with
  | send _ _ _ => Z
  | recv _ _ => option (list byte)
  | malloc _ => Z
  | free _ => unit
  | stderr _ => unit
  end.

(** The return value of [recv]. *)
Definition recv_ret (a : option (list byte)) : Z :=
  match a with
  | None => -1
  | Some bs => Z.of_nat (length bs)
  end.

Inductive io (R : Type) : Type :=
| Ret (r : R)
| Call (c : syscall) (k : answer c -> io R).
Arguments Ret {R} r.
Arguments Call {R} c k.

Notation "'let_call' x := c ; k" := (Call c (fun x => k))
  (at level 10, x name, c at level 100, k at level 200, only parsing).
Notation "'call' c ; k" := (Call c (fun _ => k))
  (at level 10, c at level 100, k at level 200, only parsing).

(** [recv] into a block: the bytes received replace its first bytes. *)
Definition overwrite (data old : list byte) : list byte :=
  data ++ drop (length data) old.

(** *** transport_send *)

(** "Prepare header": the four assignments to the local [header].
    [header0] is what the local holds before them; C leaves that
    indeterminate, and [reserved] is not assigned. *)
Definition prepare_header (header0 : transport_header_t)
    (message : transport_message_t) : transport_header_t :=
  {| Hdr.magic := KORRA_MSG_MAGIC;
     Hdr.version := KORRA_PROTOCOL_VERSION;
     Hdr.msg_type := Msg.msg_type message;
     Hdr.reserved := Hdr.reserved header0;
     Hdr.payload_size := Msg.payload_size message |}.

Definition transport_send (e : endianness) (header0 : transport_header_t)
    (st : state) (message : transport_message_t) : io (Z * state) :=
  let fd := socket_fd (transport_socket st) in
  if negb (is_connected (transport_socket st)) then
    call stderr log_cannot_send;
    Ret (-1, st)
  else
    let header := prepare_header header0 message in
    let_call r := send fd (header_bytes e header) sizeof_header;
    if negb (r =? sizeof_header) then
      call stderr log_send_header_failed;
      Ret (-1, st)
    else if Msg.payload_size message >? 0 then
      let_call r := send fd (deref (heap st) (Msg.payload message))
                (Msg.payload_size message);
      if negb (r =? Msg.payload_size message) then
        call stderr log_send_payload_failed;
        Ret (-1, st)
      else
        call stderr (log_sent (Msg.msg_type message) (Msg.payload_size message));
        Ret (0, st)
    else
      call stderr (log_sent (Msg.msg_type message) (Msg.payload_size message));
      Ret (0, st).

(** *** transport_receive *)

Definition set_payload (p : Z) (m : transport_message_t) : transport_message_t :=
  {| Msg.msg_type := Msg.msg_type m;
     Msg.payload_size := Msg.payload_size m;
     Msg.payload := p |}.

Definition transport_receive (e : endianness) (st : state)
    (message : transport_message_t) : io (Z * state * transport_message_t) :=
  let fd := socket_fd (transport_socket st) in
  if negb (is_connected (transport_socket st)) then
    call stderr log_cannot_receive;
    Ret (-1, st, message)
  else
    let_call got := recv fd sizeof_header;
    let bytes_received := recv_ret got in
    if negb (bytes_received =? sizeof_header) then
      if bytes_received =? 0 then
        call stderr log_closed_by_peer;
        Ret (-1, set_connected false st, message)
      else
        call stderr log_recv_header_failed;
        Ret (-1, st, message)
    else
      let header := header_of_bytes e (default [] got) in
      if negb (Hdr.magic header =? KORRA_MSG_MAGIC) then
        call stderr (log_invalid_magic (Hdr.magic header));
        Ret (-1, st, message)
      else if negb (Hdr.version header =? KORRA_PROTOCOL_VERSION) then
        call stderr (log_unsupported_version (Hdr.version header));
        Ret (-1, st, message)
      else
        let message :=
          {| Msg.msg_type := Hdr.msg_type header;
             Msg.payload_size := Hdr.payload_size header;
             Msg.payload := Msg.payload message |} in
        if Hdr.payload_size header >? 0 then
          let_call p := malloc (Hdr.payload_size header);
          let message := set_payload p message in
          if p =? NULL then
            call stderr (log_alloc_failed (Hdr.payload_size header));
            Ret (-1, st, message)
          else
            (* a fresh block; C leaves its content indeterminate, and the
               code reads none of it before [recv] has filled it *)
            let block := replicate (Z.to_nat (Hdr.payload_size header)) x00 in
            let st := set_heap (<[p := block]> (heap st)) st in
            let_call got := recv fd (Hdr.payload_size header);
            let bytes_received := recv_ret got in
            let st :=
              set_heap (<[p := overwrite (default [] got) block]> (heap st)) st in
            if negb (bytes_received =? Hdr.payload_size header) then
              let after_free (st : state) :=
                call free p;
                Ret (-1, set_heap (delete p (heap st)) st,
                     set_payload NULL message) in
              if bytes_received =? 0 then
                call stderr log_closed_during_payload;
                after_free (set_connected false st)
              else
                call stderr log_recv_payload_failed;
                after_free st
            else
              call stderr (log_received (Msg.msg_type message)
                                   (Msg.payload_size message));
              Ret (0, st, message)
        else
          let message := set_payload NULL message in
          call stderr (log_received (Msg.msg_type message)
                               (Msg.payload_size message));
          Ret (0, st, message).


(** *** Running a call tree *)

Definition event : Type := { c : syscall & answer c }.
Definition ev (c : syscall) (a : answer c) : event := existT c a.
Definition trace : Type := list event.

(** The outside: what each call is answered, given the calls so far. *)
Definition oracle : Type := trace -> forall c : syscall, answer c.

Fixpoint run {R : Type} (o : oracle) (t : trace) (p : io R) : R * trace :=
  match p with
  | Ret r => (r, t)
  | Call c k => let a := o t c in run o (t ++ [ev c a]) (k a)
  end.

Definition is_malloc (x : event) : bool :=
  match projT1 x with malloc _ => true | _ => false end.
Definition is_recv (x : event) : bool :=
  match projT1 x with recv _ _ => true | _ => false end.

(** The bytes a call put on the wire: the first [r] bytes of the buffer of
    a [send] that returned [r]. *)
Definition bytes_sent (x : event) : list byte :=
  match x with
  | existT c a =>
      match c as c0 return answer c0 -> list byte with
      | send _ buf _ => fun r => take (Z.to_nat r) buf
      | _ => fun _ => []
      end a
  end.

Definition wire_of (t : trace) : list byte := concat (map bytes_sent t).

(** The number of bytes a call took from the stream. *)
Definition bytes_taken (x : event) : nat :=
  match x with
  | existT c a =>
      match c as c0 return answer c0 -> nat with
      | recv _ _ => fun got => length (default [] got)
      | _ => fun _ => O
      end a
  end.

Definition consumed (t : trace) : nat := foldr (fun x n => (bytes_taken x + n)%nat) O t.

(** A socket that accepts every byte it is given (and has nothing to read);
    the allocator has no memory. *)
Definition send_all : oracle := fun _ c =>
  match c as c0 return answer c0 with
  | send _ _ len => len
  | recv _ _ => Some []
  | malloc _ => NULL
  | free _ => tt
  | stderr _ => tt
  end.

(** A socket whose peer sent [wire] and closed: [recv] returns the next
    bytes of the stream, as many as asked for while they last; [malloc]
    returns [p]. *)
Definition peer_stream (wire : list byte) (p : Z) : oracle := fun t c =>
  match c as c0 return answer c0 with
  | send _ _ len => len
  | recv _ len => Some (take (Z.to_nat len) (drop (consumed t) wire))
  | malloc _ => p
  | free _ => tt
  | stderr _ => tt
  end.

(** An outside that answers from three scripts: the [i]-th [send] returns
    the [i]-th entry of [sends], and so on; past the end of its script a
    call fails. *)
Definition count_calls (f : event -> bool) (t : trace) : nat :=
  length (filter (fun x => f x = true) t).
Definition is_send (x : event) : bool :=
  match projT1 x with send _ _ _ => true | _ => false end.

Definition scripted (sends : list Z) (recvs : list (option (list byte)))
    (mallocs : list Z) : oracle := fun t c =>
  match c as c0 return answer c0 with
  | send _ _ _ => default (-1) (sends !! count_calls is_send t)
  | recv _ _ => default None (recvs !! count_calls is_recv t)
  | malloc _ => default NULL (mallocs !! count_calls is_malloc t)
  | free _ => tt
  | stderr _ => tt
  end.

(** *** The calls of the two functions, and what they are answered *)

Section Calls.
Variables (e : endianness) (o : oracle) (st : state).
Let fd := socket_fd (transport_socket st).

(** [transport_receive]: the header [recv], the [malloc], the payload
    [recv]. *)
Definition header_call : syscall := recv fd sizeof_header.
Definition header_got : option (list byte) := o [] header_call.
Definition header_read : transport_header_t :=
  header_of_bytes e (default [] header_got).
Definition malloc_call : syscall := malloc (Hdr.payload_size header_read).
Definition malloc_got : Z := o [ev header_call header_got] malloc_call.
Definition payload_call : syscall := recv fd (Hdr.payload_size header_read).
Definition payload_got : option (list byte) :=
  o [ev header_call header_got; ev malloc_call malloc_got] payload_call.

(** [transport_send]: the header [send], the payload [send]. *)
Variables (header0 : transport_header_t) (message : transport_message_t).
Definition send_header_call : syscall :=
  send fd (header_bytes e (prepare_header header0 message)) sizeof_header.
Definition send_header_ret : Z := o [] send_header_call.
Definition send_payload_call : syscall :=
  send fd (deref (heap st) (Msg.payload message)) (Msg.payload_size message).
Definition send_payload_ret : Z :=
  o [ev send_header_call send_header_ret] send_payload_call.
End Calls.

(** The parts of a result. *)
Definition send_ret (r : Z * state * trace) : Z := r.1.1.
Definition send_state (r : Z * state * trace) : state := r.1.2.
Definition receive_ret (r : Z * state * transport_message_t * trace) : Z := r.1.1.1.
Definition receive_state (r : Z * state * transport_message_t * trace) : state := r.1.1.2.
Definition receive_message (r : Z * state * transport_message_t * trace)
  : transport_message_t := r.1.2.

(** In range: every field fits its C type. *)
Definition header_in_range (h : transport_header_t) : Prop :=
  0 <= Hdr.magic h < 2 ^ 32 /\ 0 <= Hdr.version h < 2 ^ 8
  /\ 0 <= Hdr.msg_type h < 2 ^ 8 /\ 0 <= Hdr.reserved h < 2 ^ 16
  /\ 0 <= Hdr.payload_size h < 2 ^ 32.

(** A message as the data model wants it: the fields fit their C types and
    [payload_size] is the length of the block [payload] points to. *)
Definition message_ok (hp : gmap Z (list byte)) (m : transport_message_t) : Prop :=
  0 <= Msg.msg_type m < 2 ^ 8
  /\ Msg.payload_size m < 2 ^ 32
  /\ Msg.payload_size m = Z.of_nat (length (deref hp (Msg.payload m))).

(** *** Sample inputs *)

(** A connected client whose heap holds the five bytes of "hello". *)
Definition client : state :=
  {| transport_socket :=
       {| socket_fd := 3; is_server := false; is_connected := true |};
     heap := {[ 4096 := [x68; x65; x6c; x6c; x6f] ]} |}.

(** The connected peer, with an empty heap. *)
Definition peer : state :=
  {| transport_socket :=
       {| socket_fd := 5; is_server := false; is_connected := true |};
     heap := ∅ |}.

Definition hello : transport_message_t :=
  {| Msg.msg_type := MSG_JOB_SUBMIT; Msg.payload_size := 5; Msg.payload := 4096 |}.

Definition heartbeat : transport_message_t :=
  {| Msg.msg_type := MSG_HEARTBEAT; Msg.payload_size := 0; Msg.payload := NULL |}.

Definition blank : transport_message_t :=
  {| Msg.msg_type := 0; Msg.payload_size := 0; Msg.payload := NULL |}.

(** A stack slot whose last user left all bits set. *)
Definition stack_residue : transport_header_t :=
  {| Hdr.magic := 0xFFFFFFFF; Hdr.version := 0xFF; Hdr.msg_type := 0xFF;
     Hdr.reserved := 0xFFFF; Hdr.payload_size := 0xFFFFFFFF |}.

Definition zeroed_stack : transport_header_t :=
  {| Hdr.magic := 0; Hdr.version := 0; Hdr.msg_type := 0;
     Hdr.reserved := 0; Hdr.payload_size := 0 |}.

(** Twelve header bytes as a little-endian host sends them: a JOB_SUBMIT
    frame announcing five payload bytes, and the same with the magic
    0xDEADBEEF, and with version 2. *)
Definition good_header : list byte :=
  [x41; x52; x52; x4b; x01; x03; x00; x00; x05; x00; x00; x00].
Definition bad_magic_header : list byte :=
  [xef; xbe; xad; xde; x01; x03; x00; x00; x0a; x00; x00; x00].
Definition bad_version_header : list byte :=
  [x41; x52; x52; x4b; x02; x03; x00; x00; x05; x00; x00; x00].
Definition empty_header : list byte :=
  [x41; x52; x52; x4b; x01; x00; x00; x00; x00; x00; x00; x00].

End Transport.
(* ===================================================================== *)
(** ** thread.h, thread.c *)
(* ===================================================================== *)

Module ThreadPool.

Definition MAX_THREADS : Z := 8.
Definition MAX_QUEUE : Z := 256.

(** [thread_task_t]; [function] and [arg] are addresses. *)
Record thread_task_t := {
  name : string;      (* char[64] *)
  function : Z;       (* task_function_t *)
  arg : Z             (* void* *)
}.

(** The task [memset] leaves in every slot. *)
Definition zero_task : thread_task_t := {| name := ""; function := 0; arg := 0 |}.

(** [thread_pool_t].  The thread handles, the mutex and the two condition
    variables have no field here: the threads are the [workers] of the
    [system] below, the mutex is what makes a critical section one step,
    and a thread waiting on a condition is a thread whose step is not
    enabled. *)
Record thread_pool_t := {
  queue : list thread_task_t;   (* MAX_QUEUE slots *)
  queue_size : Z;
  head : Z;
  tail : Z;
  shutdown : bool
}.

(** [queue[i]] *)
Definition slot (q : list thread_task_t) (i : Z) : thread_task_t :=
  default zero_task (q !! Z.to_nat i).

(** The state [thread_pool_init] sets up ([memset], no shutdown). *)
Definition pool_init : thread_pool_t :=
  {| queue := replicate (Z.to_nat MAX_QUEUE) zero_task;
     queue_size := 0; head := 0; tail := 0; shutdown := false |}.

(** *** thread_pool_submit: what it does while it holds the mutex *)

Inductive submit_result :=
| SubmitWait                                  (* pthread_cond_wait(queue_not_full) *)
| SubmitDone (ret : Z) (pool : thread_pool_t).

Definition thread_pool_submit (pool : thread_pool_t) (task : thread_task_t)
  : submit_result :=
  if (queue_size pool =? MAX_QUEUE) && negb (shutdown pool) then SubmitWait
  else if shutdown pool then SubmitDone (-1) pool
  else
    SubmitDone 0
      {| queue := <[Z.to_nat (tail pool) := task]> (queue pool);
         queue_size := queue_size pool + 1;
         head := head pool;
         tail := Z.rem (tail pool + 1) MAX_QUEUE;
         shutdown := shutdown pool |}.

(** *** thread_worker: one turn of the loop, up to the unlock *)

Inductive worker_result :=
| WorkerWait                                  (* pthread_cond_wait(queue_not_empty) *)
| WorkerExit                                  (* pthread_exit *)
| WorkerTake (task : thread_task_t) (pool : thread_pool_t).

Definition thread_worker (pool : thread_pool_t) : worker_result :=
  if (queue_size pool =? 0) && negb (shutdown pool) then WorkerWait
  else if shutdown pool && (queue_size pool =? 0) then WorkerExit
  else
    WorkerTake (slot (queue pool) (head pool))
      {| queue := queue pool;
         queue_size := queue_size pool - 1;
         head := Z.rem (head pool + 1) MAX_QUEUE;
         tail := tail pool;
         shutdown := shutdown pool |}.

(** *** The pool and its threads

    The threads run interleaved.  All accesses to [pool] are made with
    [queue_mutex] held, so what a thread does between lock and unlock is
    one step; a thread in [pthread_cond_wait] takes no step until its
    condition can have changed, and then tests it again (a wake-up without
    cause is a step that finds the thread still waiting, so it need not be
    told apart).  [thread_pool_shutdown] is three kinds of step: the
    critical section that sets the flag, one [pthread_join] per turn of
    its loop, and the return after the loop.  [pthread_join] returns 0
    only for a thread that has terminated; it may also report an error
    (EDEADLK for a caller that is itself the worker, ESRCH or EINVAL for a
    handle that is not a joinable thread), which the code answers by
    returning -1. *)

Inductive worker_state :=
| Idle                                (* at the top of the loop *)
| Running (task : thread_task_t)      (* in [task.function(task.arg)] *)
| Exited.

(** Where the caller of [thread_pool_shutdown] is. *)
Inductive shutdown_state :=
| NotCalled
| Joining (i : Z)                     (* in the loop, about to join threads[i] *)
| Returned (ret : Z).

Record system := {
  pool : thread_pool_t;
  workers : list worker_state;          (* pool.threads *)
  shutter : shutdown_state;
  (* the history of the run *)
  submitted : list thread_task_t;       (* accepted by submit, in order *)
  dequeued : list thread_task_t;        (* taken off the queue, in order *)
  executed : list thread_task_t         (* whose function has returned *)
}.

(** The system once [thread_pool_init] has returned 0: the pool zeroed,
    MAX_THREADS workers created. *)
Definition thread_pool_init : system :=
  {| pool := pool_init;
     workers := replicate (Z.to_nat MAX_THREADS) Idle;
     shutter := NotCalled;
     submitted := []; dequeued := []; executed := [] |}.

(** What one thread does in one step. *)
Inductive action :=
| Submit (task : thread_task_t)   (* a producer gets through thread_pool_submit *)
| WorkerTurn (i : nat)            (* worker i gets through the top of its loop *)
| TaskReturns (i : nat)           (* the task worker i runs returns *)
| ShutdownCall                    (* thread_pool_shutdown, up to the unlock *)
| Join (ret : Z)                  (* pthread_join(pool.threads[i]) returns ret *)
| ShutdownReturn.                 (* the loop is over: destroy, return 0 *)

Definition set_shutdown (p : thread_pool_t) : thread_pool_t :=
  {| queue := queue p; queue_size := queue_size p; head := head p;
     tail := tail p; shutdown := true |}.

(** [None]: the thread cannot take this step now (it is blocked, or it is
    not at that point of its code).  [Join ret] takes whatever [ret]
    [pthread_join] reports; which thread makes the call, and so what it
    reports, is recorded by [Callers.turn_step]. *)
Definition step (a : action) (s : system) : option system :=
  match a with
  | Submit task =>
      match thread_pool_submit (pool s) task with
      | SubmitWait => None
      | SubmitDone ret p =>
          Some {| pool := p; workers := workers s; shutter := shutter s;
                  submitted := if ret =? 0 then submitted s ++ [task]
                               else submitted s;
                  dequeued := dequeued s; executed := executed s |}
      end
  | WorkerTurn i =>
      match workers s !! i with
      | Some Idle =>
          match thread_worker (pool s) with
          | WorkerWait => None
          | WorkerExit =>
              Some {| pool := pool s; workers := <[i := Exited]> (workers s);
                      shutter := shutter s; submitted := submitted s;
                      dequeued := dequeued s; executed := executed s |}
          | WorkerTake task p =>
              Some {| pool := p; workers := <[i := Running task]> (workers s);
                      shutter := shutter s; submitted := submitted s;
                      dequeued := dequeued s ++ [task];
                      executed := executed s |}
          end
      | _ => None
      end
  | TaskReturns i =>
      match workers s !! i with
      | Some (Running task) =>
          Some {| pool := pool s; workers := <[i := Idle]> (workers s);
                  shutter := shutter s; submitted := submitted s;
                  dequeued := dequeued s;
                  executed := executed s ++ [task] |}
      | _ => None
      end
  | ShutdownCall =>
      match shutter s with
      | NotCalled =>
          Some {| pool := set_shutdown (pool s); workers := workers s;
                  shutter := Joining 0; submitted := submitted s;
                  dequeued := dequeued s; executed := executed s |}
      | _ => None
      end
  | Join ret =>
      match shutter s with
      | Joining i =>
          if negb (i <? MAX_THREADS) then None
          else if negb (ret =? 0) then
            (* "Failed to join worker thread" *)
            Some {| pool := pool s; workers := workers s;
                    shutter := Returned (-1); submitted := submitted s;
                    dequeued := dequeued s; executed := executed s |}
          else
            (* pthread_join returns 0 once the thread has terminated *)
            match workers s !! Z.to_nat i with
            | Some Exited =>
                Some {| pool := pool s; workers := workers s;
                        shutter := Joining (i + 1); submitted := submitted s;
                        dequeued := dequeued s; executed := executed s |}
            | _ => None
            end
      | _ => None
      end
  | ShutdownReturn =>
      match shutter s with
      | Joining i =>
          if i <? MAX_THREADS then None
          else
            Some {| pool := pool s; workers := workers s;
                    shutter := Returned 0; submitted := submitted s;
                    dequeued := dequeued s; executed := executed s |}
      | _ => None
      end
  end.

(** A run: the steps of a schedule, one after the other. *)
Fixpoint exec (sched : list action) (s : system) : option system :=
  match sched with
  | [] => Some s
  | a :: sched' =>
      match step a s with
      | Some s' => exec sched' s'
      | None => None
      end
  end.

(** The tasks waiting in the queue, oldest first: [n] slots from [h] on,
    around the ring. *)
Fixpoint pending_from (q : list thread_task_t) (h : Z) (n : nat)
  : list thread_task_t :=
  match n with
  | O => []
  | S n' => slot q h :: pending_from q (Z.rem (h + 1) MAX_QUEUE) n'
  end.

Definition pending (p : thread_pool_t) : list thread_task_t :=
  pending_from (queue p) (head p) (Z.to_nat (queue_size p)).

(** The tasks the workers are in the middle of. *)
Definition task_of (w : worker_state) : list thread_task_t :=
  match w with
  | Running t => [t]
  | _ => []
  end.

Definition running (ws : list worker_state) : list thread_task_t :=
  flat_map task_of ws.

(** *** Invariants of a run *)

(** The ring: indices in range, and [tail] is [queue_size] slots after
    [head]. *)
Definition ring_ok (p : thread_pool_t) : Prop :=
  length (queue p) = Z.to_nat MAX_QUEUE
  /\ 0 <= head p < MAX_QUEUE
  /\ 0 <= queue_size p <= MAX_QUEUE
  /\ tail p = (head p + queue_size p) mod MAX_QUEUE.

(** Where the caller of [thread_pool_shutdown] is, against the workers. *)
Definition joined_ok (s : system) : Prop :=
  match shutter s with
  | NotCalled => shutdown (pool s) = false
  | Joining i =>
      shutdown (pool s) = true /\ 0 <= i <= MAX_THREADS
      /\ forall j : nat, Z.of_nat j < i -> workers s !! j = Some Exited
  | Returned ret =>
      shutdown (pool s) = true
      /\ (ret = 0 ->
          forall j : nat, Z.of_nat j < MAX_THREADS ->
                          workers s !! j = Some Exited)
  end.

Definition invariant (s : system) : Prop :=
  ring_ok (pool s)
  /\ length (workers s) = Z.to_nat MAX_THREADS
  /\ submitted s = dequeued s ++ pending (pool s)
  /\ dequeued s ≡ₚ executed s ++ running (workers s)
  /\ (forall i, workers s !! i = Some Exited ->
                shutdown (pool s) = true /\ queue_size (pool s) = 0)
  /\ joined_ok s.

(** *** Sample inputs *)

Definition job (n : Z) : thread_task_t :=
  {| name := "job"; function := 4198400; arg := n |}.

(** A full queue on which shutdown has been requested. *)
Definition full_pool_shut_down : thread_pool_t :=
  {| queue := replicate (Z.to_nat MAX_QUEUE) (job 7);
     queue_size := MAX_QUEUE; head := 0; tail := 0; shutdown := true |}.

(** Two submits, taken by workers 5 and 2. *)
Definition two_jobs : list action :=
  [Submit (job 1); Submit (job 2); WorkerTurn 5; WorkerTurn 2].

(** A queue filled to the last slot while no worker has had a turn. *)
Definition fill_queue : list action :=
  replicate (Z.to_nat MAX_QUEUE) (Submit (job 1)).

(** One job, then the call of shutdown. *)
Definition shut_down_early : list action := [Submit (job 1); ShutdownCall].

(** What [pthread_join] reports when the thread to join is the caller. *)
Definition EDEADLK : Z := 35.

(** The states these runs end in. *)
Definition end_of (sched : list action) : system :=
  default thread_pool_init (exec sched thread_pool_init).
Definition two_jobs_end : system := Eval vm_compute in end_of two_jobs.
Definition fill_queue_end : system := Eval vm_compute in end_of fill_queue.
Definition shut_down_early_end : system :=
  Eval vm_compute in end_of shut_down_early.

End ThreadPool.
(* ===================================================================== *)
(** ** The work a pool has left *)
(* ===================================================================== *)

Module PoolProgress.
Import ThreadPool.

(** A worker that has not exited counts for one. *)
Definition still_alive (w : worker_state) : list unit :=
  match w with
  | Exited => []
  | _ => [tt]
  end.

(** A bound on the steps between a state and the return of
    [thread_pool_shutdown]: the call itself and the joins still to make,
    the tasks running, two steps for each task in the queue (taking it,
    running it), one exit for each worker. *)
Definition work_left (s : system) : nat :=
  (match shutter s with
   | NotCalled => S (Z.to_nat MAX_THREADS)
   | Joining i => Z.to_nat (MAX_THREADS - i)
   | Returned _ => O
   end
   + length (running (workers s))
   + 2 * Z.to_nat (queue_size (pool s))
   + length (flat_map still_alive (workers s)))%nat.

(** The steps a pool is driven to the end with. *)
Inductive driving : action -> Prop :=
| driving_call : driving ShutdownCall
| driving_return i : driving (TaskReturns i)
| driving_turn i : driving (WorkerTurn i)
| driving_join : driving (Join 0)
| driving_end : driving ShutdownReturn.

End PoolProgress.

(* ===================================================================== *)
(** ** thread.c: who calls thread_pool_shutdown *)
(* ===================================================================== *)

Module Callers.
Import ThreadPool.

(** [thread_pool_shutdown] is called by a thread that is not one of the
    pool's workers, or from inside the task that worker [i] is running. *)
Inductive caller :=
| Outside
| FromTask (i : nat).

(** The pool with the caller of [thread_pool_shutdown], once it has been
    called. *)
Record pool_run := {
  sys : system;
  shutdown_caller : option caller
}.

Definition pool_start : pool_run :=
  {| sys := thread_pool_init; shutdown_caller := None |}.

(** What [pthread_join(pool.threads[i])] returns to this caller, for
    threads that [thread_pool_init] created: EDEADLK when the thread to
    join is the calling thread itself, 0 (once the thread has terminated)
    otherwise. *)
Definition join_returns (c : caller) (i : Z) : Z :=
  match c with
  | Outside => 0
  | FromTask j => if Z.of_nat j =? i then EDEADLK else 0
  end.

(** Worker [i] is inside [thread_pool_shutdown], called from its task. *)
Definition inside_shutdown (s : pool_run) (i : nat) : bool :=
  match shutdown_caller s, shutter (sys s) with
  | Some (FromTask j), Joining _ => Nat.eqb i j
  | _, _ => false
  end.

(** A task can only make the call while it runs. *)
Definition may_call (s : system) (c : caller) : bool :=
  match c with
  | Outside => true
  | FromTask i =>
      match workers s !! i with
      | Some (Running _) => true
      | _ => false
      end
  end.

Definition with_sys (s : pool_run) (o : option system) : option pool_run :=
  option_map (fun t => {| sys := t; shutdown_caller := shutdown_caller s |}) o.

Inductive turn :=
| Submits (task : thread_task_t)
| WorkerTurns (i : nat)
| TaskEnds (i : nat)
| CallsShutdown (c : caller)
| Joins
| ShutdownReturns.

(** One step of the pool, as [step], where a task that is inside
    [thread_pool_shutdown] does not return before the call does, and
    [pthread_join] returns what [join_returns] says. *)
Definition turn_step (a : turn) (s : pool_run) : option pool_run :=
  match a with
  | Submits task => with_sys s (step (Submit task) (sys s))
  | WorkerTurns i => with_sys s (step (WorkerTurn i) (sys s))
  | TaskEnds i =>
      if inside_shutdown s i then None
      else with_sys s (step (TaskReturns i) (sys s))
  | CallsShutdown c =>
      if may_call (sys s) c then
        option_map (fun t => {| sys := t; shutdown_caller := Some c |})
                   (step ShutdownCall (sys s))
      else None
  | Joins =>
      match shutdown_caller s, shutter (sys s) with
      | Some c, Joining i =>
          with_sys s (step (Join (join_returns c i)) (sys s))
      | _, _ => None
      end
  | ShutdownReturns => with_sys s (step ShutdownReturn (sys s))
  end.

Fixpoint turn_exec (sched : list turn) (s : pool_run) : option pool_run :=
  match sched with
  | [] => Some s
  | a :: sched' =>
      match turn_step a s with
      | Some s' => turn_exec sched' s'
      | None => None
      end
  end.

(** The caller against the state of the call. *)
Definition caller_ok (s : pool_run) : Prop :=
  match shutdown_caller s, shutter (sys s) with
  | None, NotCalled => True
  | Some Outside, Joining _ => True
  | Some Outside, Returned ret => ret = 0
  | Some (FromTask i), Joining k =>
      k <= Z.of_nat i /\ exists t, workers (sys s) !! i = Some (Running t)
  | Some (FromTask i), Returned ret => ret = -1
  | _, _ => False
  end.

(** The system with [thread_pool_shutdown] having returned [ret]. *)
Definition returned (ret : Z) (s : system) : system :=
  {| pool := pool s; workers := workers s; shutter := Returned ret;
     submitted := submitted s; dequeued := dequeued s;
     executed := executed s |}.

(** *** Sample runs *)

(** Two jobs are queued; worker 0 takes the first, and that job calls
    [thread_pool_shutdown] ... *)
Definition task_in_shutdown : list turn :=
  [Submits (job 1); Submits (job 2); WorkerTurns 0;
   CallsShutdown (FromTask 0)].

(** ... which goes on to [pthread_join(pool.threads[0], NULL)]. *)
Definition task_calls_shutdown : list turn := task_in_shutdown ++ [Joins].

(** Three jobs run to the end, with a shutdown called from outside. *)
Definition orderly_run : list turn :=
  [Submits (job 1); Submits (job 2); WorkerTurns 5; Submits (job 3);
   WorkerTurns 2; TaskEnds 2; CallsShutdown Outside; WorkerTurns 2;
   TaskEnds 5; WorkerTurns 0; WorkerTurns 1; TaskEnds 2; WorkerTurns 2;
   WorkerTurns 3; WorkerTurns 4; WorkerTurns 5; WorkerTurns 6; WorkerTurns 7;
   Joins; Joins; Joins; Joins; Joins; Joins; Joins; Joins;
   ShutdownReturns].

(** Three jobs queued, two of them taken and still running. *)
Definition busy_run : list turn :=
  [Submits (job 1); Submits (job 2); Submits (job 3); WorkerTurns 6;
   WorkerTurns 1].

Definition end_of_run (sched : list turn) : pool_run :=
  default pool_start (turn_exec sched pool_start).
Definition task_in_shutdown_end : pool_run :=
  Eval vm_compute in end_of_run task_in_shutdown.
Definition task_calls_shutdown_end : pool_run :=
  Eval vm_compute in end_of_run task_calls_shutdown.
Definition orderly_end : pool_run := Eval vm_compute in end_of_run orderly_run.
Definition busy_end : pool_run := Eval vm_compute in end_of_run busy_run.

End Callers.

(* ===================================================================== *)
(** ** Streams of frames *)
(* ===================================================================== *)

Module Streams.
Import Wire Transport.

(** The bytes a [malloc] sets aside. *)
Definition bytes_allocated (x : event) : Z :=
  match projT1 x with
  | malloc size => Z.max 0 size
  | _ => 0
  end.

Definition allocated (t : trace) : Z :=
  foldr (fun x n => bytes_allocated x + n) 0 t.

(** A socket whose peer sent [wire] and closed, as [peer_stream], with an
    allocator that lays its blocks out one after the other from [base]:
    a [malloc] returns [base] plus the bytes allocated before it, so no
    two blocks share a byte. *)
Definition stream_oracle (wire : list byte) (base : Z) : oracle := fun t c =>
  match c as c0 return answer c0 with
  | send _ _ len => len
  | recv _ len => Some (take (Z.to_nat len) (drop (consumed t) wire))
  | malloc _ => base + allocated t
  | free _ => tt
  | stderr _ => tt
  end.

(** Two messages agree: type, size and payload bytes, each on its heap. *)
Definition same_message (hp : gmap Z (list byte)) (m : transport_message_t)
    (hp' : gmap Z (list byte)) (m' : transport_message_t) : Prop :=
  Msg.msg_type m = Msg.msg_type m'
  /\ Msg.payload_size m = Msg.payload_size m'
  /\ deref hp (Msg.payload m) = deref hp' (Msg.payload m').

(** A second payload on the client's heap, and the message that carries
    it. *)
Definition client2 : state :=
  {| transport_socket := transport_socket client;
     heap := <[ 4200 := [x4f; x4b] ]> (heap client) |}.

Definition ok_message : transport_message_t :=
  {| Msg.msg_type := MSG_JOB_RESULT; Msg.payload_size := 2;
     Msg.payload := 4200 |}.

End Streams.

(* ===================================================================== *)
(** ** transport.c: opening, accepting, closing *)
(* ===================================================================== *)

Module Connection.
Import Wire Transport.

(** Constants of the socket interface (their Linux values). *)
Definition AF_INET : Z := 2.
Definition SOCK_STREAM : Z := 1.
Definition SOL_SOCKET : Z := 1.
Definition SO_REUSEADDR : Z := 2.
Definition INADDR_ANY : Z := 0.

(** [struct sockaddr_in]; [sin_port] is kept as its two bytes in memory. *)
Record sockaddr_in := {
  sin_family : Z;
  sin_port : list byte;
  sin_addr : Z
}.

(** [htons]: the low 16 bits, most significant byte first. *)
Definition htons (port : Z) : list byte := network_order 2 port.

Inductive netdiag :=
| log_initializing (port : Z) (is_server : bool)
| log_socket_failed
| log_setsockopt_failed
| log_bind_failed
| log_listen_failed
| log_server_ready (port : Z)
| log_connect_failed
| log_client_ready (port : Z)
| log_not_a_server
| log_accept_failed
| log_accepted (peer : sockaddr_in)
| log_closing.

Inductive netcall :=
| sys_socket (domain type protocol : Z)
| sys_setsockopt (fd level optname optval : Z)
| sys_bind (fd : Z) (addr : sockaddr_in)
| sys_listen (fd backlog : Z)
| sys_connect (fd : Z) (addr : sockaddr_in)
| sys_accept (fd : Z)
| sys_close (fd : Z)
| sys_stderr (d : netdiag).

(** What a call gives back: its return value; [accept] also the address
    of the peer. *)
Definition net_answer (c : netcall) : Type :=
  match c with
  | sys_accept _ => (Z * sockaddr_in)%type
  | sys_stderr _ => unit
  | _ => Z
  end.

Inductive nio (R : Type) : Type :=
| NRet (r : R)
| NCall (c : netcall) (k : net_answer c -> nio R).
Arguments NRet {R} r.
Arguments NCall {R} c k.

Notation "'let_net' x := c ; k" := (NCall c (fun x => k))
  (at level 10, x name, c at level 100, k at level 200, only parsing).
Notation "'net' c ; k" := (NCall c (fun _ => k))
  (at level 10, c at level 100, k at level 200, only parsing).

Definition net_event : Type := { c : netcall & net_answer c }.
Definition nev (c : netcall) (a : net_answer c) : net_event := existT c a.
Definition net_trace : Type := list net_event.
Definition net_oracle : Type := net_trace -> forall c : netcall, net_answer c.

Fixpoint net_run {R : Type} (o : net_oracle) (t : net_trace) (p : nio R)
  : R * net_trace :=
  match p with
  | NRet r => (r, t)
  | NCall c k => let a := o t c in net_run o (t ++ [nev c a]) (k a)
  end.

(** *** transport_init *)

(** The state before the call plays no part: [memset] clears it. *)
Definition transport_init (port : Z) (is_server : bool)
  : nio (Z * transport_socket_t) :=
  net sys_stderr (log_initializing port is_server);
  let_net fd := sys_socket AF_INET SOCK_STREAM 0;
  let sock := {| socket_fd := fd; is_server := is_server;
                 is_connected := false |} in
  if fd <? 0 then
    net sys_stderr log_socket_failed;
    NRet (-1, sock)
  else
    let opt := 1 in
    let_net r := sys_setsockopt fd SOL_SOCKET SO_REUSEADDR opt;
    if r <? 0 then
      net sys_stderr log_setsockopt_failed;
      net sys_close fd;
      NRet (-1, sock)
    else
      let address := {| sin_family := AF_INET; sin_port := htons port;
                        sin_addr := INADDR_ANY |} in
      if is_server then
        let_net r := sys_bind fd address;
        if r <? 0 then
          net sys_stderr log_bind_failed;
          net sys_close fd;
          NRet (-1, sock)
        else
          let_net r := sys_listen fd 10;
          if r <? 0 then
            net sys_stderr log_listen_failed;
            net sys_close fd;
            NRet (-1, sock)
          else
            net sys_stderr (log_server_ready port);
            NRet (0, sock)
      else
        let_net r := sys_connect fd address;
        if r <? 0 then
          net sys_stderr log_connect_failed;
          net sys_close fd;
          NRet (-1, sock)
        else
          net sys_stderr (log_client_ready port);
          NRet (0, {| socket_fd := fd; is_server := is_server;
                      is_connected := true |}).

(** *** transport_accept *)

(** [client_fd] is what [*client_fd] holds; the result carries what it
    holds afterwards. *)
Definition transport_accept (sock : transport_socket_t) (client_fd : Z)
  : nio (Z * transport_socket_t * Z) :=
  if negb (is_server sock) then
    net sys_stderr log_not_a_server;
    NRet (-1, sock, client_fd)
  else
    let_net got := sys_accept (socket_fd sock);
    let client_fd := got.1 in
    if client_fd <? 0 then
      net sys_stderr log_accept_failed;
      NRet (-1, sock, client_fd)
    else
      net sys_stderr (log_accepted got.2);
      NRet (0, sock, client_fd).

(** *** transport_close *)

Definition transport_close (sock : transport_socket_t)
  : nio transport_socket_t :=
  net sys_stderr log_closing;
  if socket_fd sock >? 0 then
    net sys_close (socket_fd sock);
    NRet {| socket_fd := -1; is_server := is_server sock;
            is_connected := false |}
  else
    NRet {| socket_fd := socket_fd sock; is_server := is_server sock;
            is_connected := false |}.

(** *** Reading a trace *)

(** The descriptors handed to [close], in order. *)
Definition closed_fd (x : net_event) : list Z :=
  match projT1 x with
  | sys_close fd => [fd]
  | _ => []
  end.
Definition closes (t : net_trace) : list Z := flat_map closed_fd t.

(** The calls that reported a failure: a negative return value of a call
    whose value the code looks at. *)
Definition call_failed (x : net_event) : bool :=
  match x with
  | existT c a =>
      match c as c0 return net_answer c0 -> bool with
      | sys_socket _ _ _ => fun r => r <? 0
      | sys_setsockopt _ _ _ _ => fun r => r <? 0
      | sys_bind _ _ => fun r => r <? 0
      | sys_listen _ _ => fun r => r <? 0
      | sys_connect _ _ => fun r => r <? 0
      | sys_accept _ => fun r => r.1 <? 0
      | sys_close _ => fun _ => false
      | sys_stderr _ => fun _ => false
      end a
  end.
Definition failures (t : net_trace) : nat :=
  length (flat_map (fun x => if call_failed x then [x] else []) t).

(** The transport with a heap beside it, as [transport_send] and
    [transport_receive] take it. *)
Definition with_heap (sock : transport_socket_t) (hp : gmap Z (list byte))
  : state := {| transport_socket := sock; heap := hp |}.

(** The descriptor [socket] returns to [transport_init]. *)
Definition socket_got (o : net_oracle) (port : Z) (is_server : bool) : Z :=
  o [nev (sys_stderr (log_initializing port is_server))
         (o [] (sys_stderr (log_initializing port is_server)))]
    (sys_socket AF_INET SOCK_STREAM 0).

(** *** Sample outsides *)

(** Every call answers the same value; [accept] gives descriptor 7 and a
    peer on 127.0.0.1:40000. *)
Definition loopback_peer : sockaddr_in :=
  {| sin_family := AF_INET; sin_port := htons 40000; sin_addr := 2130706433 |}.

Definition all_calls_return (fd r : Z) : net_oracle := fun _ c =>
  match c as c0 return net_answer c0 with
  | sys_socket _ _ _ => fd
  | sys_accept _ => (7, loopback_peer)
  | sys_stderr _ => tt
  | sys_setsockopt _ _ _ _ => r
  | sys_bind _ _ => r
  | sys_listen _ _ => r
  | sys_connect _ _ => r
  | sys_close _ => 0
  end.

End Connection.

(* ===================================================================== *)
(** ** thread.c: setting the pool up *)
(* ===================================================================== *)

Module PoolSetup.
Import ThreadPool.

(** What the pthread calls of [thread_pool_init] return, in the order it
    makes them: [pthread_mutex_init], the two [pthread_cond_init], then
    [pthread_create] for threads 0, 1, ... *)
Definition returns : Type := nat -> Z.

(** The loop [for (i = 0; i < MAX_THREADS; i++)] from index [i] on, with
    [n] turns left and [ws] the workers started so far. *)
Fixpoint create_workers (rets : returns) (i n : nat) (ws : list worker_state)
  : Z * list worker_state :=
  match n with
  | O => (0, ws)
  | S n' =>
      if negb (rets (3 + i)%nat =? 0) then (-1, ws)
      else create_workers rets (S i) n' (ws ++ [Idle])
  end.

(** The system with the workers [ws] on a pool just cleared. *)
Definition fresh_system (ws : list worker_state) : system :=
  {| pool := pool_init; workers := ws; shutter := NotCalled;
     submitted := []; dequeued := []; executed := [] |}.

(** [thread_pool_init]: the return value and the system it leaves.  What
    the pool held before is gone with the [memset]. *)
Definition thread_pool_init (rets : returns) : Z * system :=
  if negb (rets 0%nat =? 0) then (-1, fresh_system [])
  else if negb (rets 1%nat =? 0) then (-1, fresh_system [])
  else if negb (rets 2%nat =? 0) then (-1, fresh_system [])
  else
    let created := create_workers rets 0 (Z.to_nat MAX_THREADS) [] in
    (created.1, fresh_system created.2).


End PoolSetup.

(* ===================================================================== *)
(** ** rust_glue.c *)
(* ===================================================================== *)

Module RustGlue.

(** [rust_ffi_callbacks_t]: three function pointers, 0 for NULL. *)
Record rust_ffi_callbacks_t := {
  agent_create : Z;
  agent_execute : Z;
  agent_destroy : Z
}.

(** The three file-level pointers [rust_agent_create],
    [rust_agent_execute], [rust_agent_destroy]. *)
Record glue_state := {
  rust_agent_create : Z;
  rust_agent_execute : Z;
  rust_agent_destroy : Z
}.

(** Before [rust_ffi_init]: all NULL. *)
Definition glue_start : glue_state :=
  {| rust_agent_create := 0; rust_agent_execute := 0;
     rust_agent_destroy := 0 |}.

(** A call through one of the pointers, with its arguments (addresses and
    sizes). *)
Inductive invocation :=
| invoke_create (fn agent_type config : Z)
| invoke_execute (fn handle input input_size output output_size : Z)
| invoke_destroy (fn handle : Z).

(** What a wrapper does: it returns a value of its own, or it makes a
    call through a pointer and returns what that call returns. *)
Inductive outcome :=
| returns (v : Z)
| returns_void
| forwards (c : invocation).

Definition rust_ffi_init (callbacks : rust_ffi_callbacks_t)
  : Z * glue_state :=
  let st := {| rust_agent_create := agent_create callbacks;
               rust_agent_execute := agent_execute callbacks;
               rust_agent_destroy := agent_destroy callbacks |} in
  if (rust_agent_create st =? 0) || (rust_agent_execute st =? 0)
     || (rust_agent_destroy st =? 0)
  then (-1, st)
  else (0, st).

Definition create_agent (st : glue_state) (agent_type config : Z) : outcome :=
  if rust_agent_create st =? 0 then returns 0
  else forwards (invoke_create (rust_agent_create st) agent_type config).

Definition execute_agent (st : glue_state)
    (handle input input_size output output_size : Z) : outcome :=
  if rust_agent_execute st =? 0 then returns (-1)
  else if handle =? 0 then returns (-1)
  else forwards (invoke_execute (rust_agent_execute st) handle input
                   input_size output output_size).

Definition destroy_agent (st : glue_state) (handle : Z) : outcome :=
  if rust_agent_destroy st =? 0 then returns_void
  else if handle =? 0 then returns_void
  else forwards (invoke_destroy (rust_agent_destroy st) handle).

(** *** A caller of the interface *)

Inductive api_call :=
| api_init (callbacks : rust_ffi_callbacks_t)
| api_create (agent_type config : Z)
| api_execute (handle input input_size output output_size : Z)
| api_destroy (handle : Z).

Definition api_step (st : glue_state) (c : api_call) : glue_state * outcome :=
  match c with
  | api_init callbacks =>
      let r := rust_ffi_init callbacks in (r.2, returns r.1)
  | api_create agent_type config => (st, create_agent st agent_type config)
  | api_execute handle input input_size output output_size =>
      (st, execute_agent st handle input input_size output output_size)
  | api_destroy handle => (st, destroy_agent st handle)
  end.

(** The calls made through the pointers during a sequence of calls of the
    interface, in order. *)
Fixpoint api_run (st : glue_state) (cs : list api_call)
  : glue_state * list invocation :=
  match cs with
  | [] => (st, [])
  | c :: cs' =>
      let r := api_step st c in
      let rest := api_run r.1 cs' in
      (rest.1, match r.2 with forwards i => [i] | _ => [] end ++ rest.2)
  end.

(** A call through a pointer is sound when the pointer is not NULL and,
    for execute and destroy, the handle is not NULL either. *)
Definition sound (i : invocation) : Prop :=
  match i with
  | invoke_create fn _ _ => fn <> 0
  | invoke_execute fn handle _ _ _ _ => fn <> 0 /\ handle <> 0
  | invoke_destroy fn handle => fn <> 0 /\ handle <> 0
  end.

(** Callbacks with no execute entry. *)
Definition partial_callbacks : rust_ffi_callbacks_t :=
  {| agent_create := 4210000; agent_execute := 0; agent_destroy := 4210200 |}.

End RustGlue.

(* ===================================================================== *)
(** ** Facts about the byte encodings *)
(* ===================================================================== *)

Module WireFacts.
Import Wire.

Lemma Z_of_byte_range (x : byte) : 0 <= Z_of_byte x < 256.
Proof.
  unfold Z_of_byte. pose proof (Byte.to_N_bounded x). lia.
Qed.

Lemma Z_of_byte_of_Z (z : Z) : Z_of_byte (byte_of_Z z) = z mod 256.
Proof.
  unfold Z_of_byte, byte_of_Z.
  assert (Hr : 0 <= z mod 256 < 256) by (apply Z.mod_pos_bound; lia).
  destruct (Byte.of_N (Z.to_N (z mod 256))) as [x|] eqn:E.
  - apply Byte.to_of_N in E. rewrite E. lia.
  - apply Byte.of_N_None_iff in E. lia.
Qed.

Lemma length_le_bytes (n : nat) (v : Z) : length (le_bytes n v) = n.
Proof.
  revert v. induction n as [|n IH]; intros v; simpl; [reflexivity|].
  now rewrite IH.
Qed.

(** Reading back [n] bytes gives the value reduced to [8n] bits. *)
Lemma le_value_le_bytes (n : nat) (v : Z) :
  le_value (le_bytes n v) = v mod 2 ^ (8 * Z.of_nat n).
Proof.
  revert v. induction n as [|n IH]; intros v.
  - simpl. now rewrite Z.mod_1_r.
  - cbn [le_bytes le_value]. rewrite IH, Z_of_byte_of_Z.
    change 256 with (2 ^ 8).
    apply Z.bits_inj'. intros i Hi. rewrite Z.lor_spec.
    destruct (Z.lt_ge_cases i 8) as [Hlo|Hhi].
    + rewrite Z.shiftl_spec_low by lia. rewrite orb_false_r.
      rewrite !Z.mod_pow2_bits_low by lia. reflexivity.
    + rewrite (Z.mod_pow2_bits_high v 8 i) by lia.
      rewrite Z.shiftl_spec by lia. cbn [orb].
      destruct (Z.lt_ge_cases i (8 * Z.of_nat (S n))) as [Hin|Hout].
      * rewrite !Z.mod_pow2_bits_low by lia.
        rewrite Z.shiftr_spec by lia. f_equal. lia.
      * rewrite !Z.mod_pow2_bits_high by lia. reflexivity.
Qed.

Lemma load_store_uint (e : endianness) (n : nat) (v : Z) :
  load_uint e (store_uint e n v) = v mod 2 ^ (8 * Z.of_nat n).
Proof.
  destruct e; unfold load_uint, store_uint.
  - apply le_value_le_bytes.
  - rewrite rev_involutive. apply le_value_le_bytes.
Qed.

Lemma load_one_byte (e : endianness) (v : Z) :
  load_uint e [byte_of_Z v] = v mod 2 ^ 8.
Proof.
  destruct e.
  - apply (load_store_uint LittleEndian 1 v).
  - apply (load_store_uint BigEndian 1 v).
Qed.

Lemma store_uint_big (n : nat) (v : Z) :
  store_uint BigEndian n v = network_order n v.
Proof. reflexivity. Qed.

Lemma store_uint_little (n : nat) (v : Z) :
  store_uint LittleEndian n v = rev (network_order n v).
Proof. unfold network_order. now rewrite rev_involutive. Qed.

End WireFacts.

(* ===================================================================== *)
(** ** The transport: framing, validation, failures *)
(* ===================================================================== *)

Module TransportSpec.
Import Wire Transport WireFacts.

Lemma run_ret {R : Type} (o : oracle) (t : trace) (r : R) :
  run o t (Ret r) = (r, t).
Proof. reflexivity. Qed.

Lemma run_call {R : Type} (o : oracle) (t : trace) (c : syscall)
    (k : answer c -> io R) :
  run o t (Call c k) = run o (t ++ [ev c (o t c)]) (k (o t c)).
Proof. reflexivity. Qed.

Lemma unit_tt (u : unit) : u = tt.
Proof. now destruct u. Qed.

(** A diagnostic is one call, answered by nothing. *)
Lemma run_stderr {R : Type} (o : oracle) (t : trace) (d : diag) (p : io R) :
  run o t (Call (stderr d) (fun _ => p)) = run o (t ++ [ev (stderr d) tt]) p.
Proof.
  rewrite run_call. now rewrite (unit_tt (o t (stderr d))).
Qed.

Lemma run_free {R : Type} (o : oracle) (t : trace) (q : Z) (p : io R) :
  run o t (Call (free q) (fun _ => p)) = run o (t ++ [ev (free q) tt]) p.
Proof.
  rewrite run_call. now rewrite (unit_tt (o t (free q))).
Qed.

(** Stepping through a call tree. *)
Ltac step_run :=
  first [ rewrite run_stderr | rewrite run_free | rewrite run_call
        | rewrite run_ret ];
  cbn [app].

(** *** The layout of the header *)

Lemma header_layout (e : endianness) (h : transport_header_t) :
  let hb := header_bytes e h in
  take 4 hb = store_uint e 4 (Hdr.magic h)
  /\ take 1 (drop 4 hb) = [byte_of_Z (Hdr.version h)]
  /\ take 1 (drop 5 hb) = [byte_of_Z (Hdr.msg_type h)]
  /\ take 2 (drop 6 hb) = store_uint e 2 (Hdr.reserved h)
  /\ take 4 (drop 8 hb) = store_uint e 4 (Hdr.payload_size h)
  /\ drop 12 hb = [].
Proof.
  destruct e; repeat split; reflexivity.
Qed.

(** On a big-endian host the frame header of [hello] is the wire-format
    table read left to right; on a little-endian host the three wide
    fields are turned around. *)
Example header_bytes_big_endian :
  header_bytes BigEndian (prepare_header zeroed_stack hello) =
    [x4b; x52; x52; x41; x01; x03; x00; x00; x00; x00; x00; x05].
Proof. reflexivity. Qed.

Example header_bytes_little_endian :
  header_bytes LittleEndian (prepare_header zeroed_stack hello) = good_header.
Proof. reflexivity. Qed.

Example header_of_good_header :
  header_of_bytes LittleEndian good_header =
    {| Hdr.magic := KORRA_MSG_MAGIC; Hdr.version := 1;
       Hdr.msg_type := MSG_JOB_SUBMIT; Hdr.reserved := 0;
       Hdr.payload_size := 5 |}.
Proof. reflexivity. Qed.

Lemma length_header_bytes (e : endianness) (h : transport_header_t) :
  length (header_bytes e h) = 12%nat.
Proof. destruct e; reflexivity. Qed.

Lemma header_of_header_bytes (e : endianness) (h : transport_header_t) :
  header_in_range h -> header_of_bytes e (header_bytes e h) = h.
Proof.
  intros (Hm & Hv & Ht & Hr & Hp).
  destruct (header_layout e h) as (L0 & L4 & L5 & L6 & L8 & _).
  unfold header_of_bytes. rewrite L0, L4, L5, L6, L8.
  rewrite !load_one_byte, !load_store_uint.
  rewrite !Z.mod_small by assumption.
  now destruct h.
Qed.

(** *** Rejected headers *)

(** C7. A header that was read in full but whose magic is not 0x4B525241,
    or whose version is not 1, makes [transport_receive] return -1 after the
    diagnostic for the first check that fails (magic before version).  The
    header read and that diagnostic are all the calls it makes: no [malloc]
    and no second [recv], whatever [payload_size] the header carries; the
    state and the caller's message are as they were. *)
Theorem invalid_header_rejected (e : endianness) (o : oracle) (st : state)
    (message : transport_message_t) :
  is_connected (transport_socket st) = true ->
  recv_ret (header_got o st) = sizeof_header ->
  Hdr.magic (header_read e o st) <> KORRA_MSG_MAGIC
    \/ Hdr.version (header_read e o st) <> KORRA_PROTOCOL_VERSION ->
  run o [] (transport_receive e st message) =
    ((-1, st, message),
     [ev (header_call st) (header_got o st);
      ev (stderr
            (if Hdr.magic (header_read e o st) =? KORRA_MSG_MAGIC
             then log_unsupported_version (Hdr.version (header_read e o st))
             else log_invalid_magic (Hdr.magic (header_read e o st)))) tt]).
Proof.
  intros Hconn Hlen Hbad.
  unfold transport_receive. rewrite Hconn. cbn [negb].
  step_run. fold (header_call st). fold (header_got o st).
  rewrite Hlen. cbn [Z.eqb sizeof_header Pos.eqb negb].
  fold (header_read e o st).
  destruct (Hdr.magic (header_read e o st) =? KORRA_MSG_MAGIC) eqn:Em;
    cbn [negb].
  - destruct (Hdr.version (header_read e o st) =? KORRA_PROTOCOL_VERSION)
      eqn:Ev; cbn [negb].
    + apply Z.eqb_eq in Em, Ev. tauto.
    + now do 2 step_run.
  - now do 2 step_run.
Qed.

Lemma invalid_header_rejected_witness :
  run (scripted [] [Some bad_magic_header] []) []
      (transport_receive LittleEndian peer blank) =
    ((-1, peer, blank),
     [ev (recv 5 12) (Some bad_magic_header);
      ev (stderr (log_invalid_magic 0xDEADBEEF)) tt]).
Proof.
  apply (invalid_header_rejected LittleEndian
           (scripted [] [Some bad_magic_header] []) peer blank).
  - reflexivity.
  - reflexivity.
  - left. vm_compute. discriminate.
Defined.

(** *** A frame without payload *)

(** C10. When [transport_receive] returns 0 and the header it read has
    [payload_size] 0, the message it hands back has the header's [msg_type]
    and [payload_size] and a NULL [payload]; no [malloc] was made and the
    state is as it was. *)
Theorem empty_payload_is_null (e : endianness) (o : oracle) (st : state)
    (message : transport_message_t) :
  let r := run o [] (transport_receive e st message) in
  receive_ret r = 0 ->
  Hdr.payload_size (header_read e o st) = 0 ->
  receive_message r =
    {| Msg.msg_type := Hdr.msg_type (header_read e o st);
       Msg.payload_size := Hdr.payload_size (header_read e o st);
       Msg.payload := NULL |}
  /\ receive_state r = st
  /\ filter (fun x => is_malloc x = true) r.2 = [].
Proof.
  intros r. subst r. unfold transport_receive.
  destruct (is_connected (transport_socket st)); cbn [negb].
  2: { step_run. step_run. cbn. discriminate. }
  step_run. fold (header_call st). fold (header_got o st).
  destruct (recv_ret (header_got o st) =? sizeof_header); cbn [negb].
  2: { destruct (recv_ret (header_got o st) =? 0);
       do 2 step_run; cbn; discriminate. }
  fold (header_read e o st).
  destruct (Hdr.magic (header_read e o st) =? KORRA_MSG_MAGIC); cbn [negb].
  2: { do 2 step_run. cbn. discriminate. }
  destruct (Hdr.version (header_read e o st) =? KORRA_PROTOCOL_VERSION);
    cbn [negb].
  2: { do 2 step_run. cbn. discriminate. }
  intros _ Hsize. rewrite Hsize. cbn [Z.gtb Z.compare].
  do 2 step_run. cbn [receive_message receive_state fst snd].
  repeat split.
Qed.

Lemma empty_payload_is_null_witness :
  receive_message
    (run (scripted [] [Some empty_header] []) []
         (transport_receive LittleEndian peer hello)) = heartbeat.
Proof.
  apply (empty_payload_is_null LittleEndian
           (scripted [] [Some empty_header] []) peer hello);
    reflexivity.
Defined.

(** *** Reads that come back short *)

(** C8. For a connected transport:
    - a header [recv] that returns 0 makes [transport_receive] return -1
      with [is_connected] false; it has made no [malloc], the heap is as
      it was and the caller's message is untouched;
    - after a valid header with a positive [payload_size] and a successful
      [malloc] of a block [p], a payload [recv] that does not return
      [payload_size] makes it return -1 after [free(p)], with the message's
      [payload] NULL and the block gone from the heap; [is_connected] is
      false when that [recv] returned 0 and still true otherwise.
    Descriptor and role are never touched. *)
Theorem short_read_reported (e : endianness) (o : oracle) (st : state)
    (message : transport_message_t) :
  is_connected (transport_socket st) = true ->
  let r := run o [] (transport_receive e st message) in
  (recv_ret (header_got o st) = 0 ->
   receive_ret r = -1
   /\ is_connected (transport_socket (receive_state r)) = false
   /\ socket_fd (transport_socket (receive_state r))
      = socket_fd (transport_socket st)
   /\ is_server (transport_socket (receive_state r))
      = is_server (transport_socket st)
   /\ heap (receive_state r) = heap st
   /\ receive_message r = message
   /\ r.2 = [ev (header_call st) (header_got o st);
             ev (stderr log_closed_by_peer) tt])
  /\
  (recv_ret (header_got o st) = sizeof_header ->
   Hdr.magic (header_read e o st) = KORRA_MSG_MAGIC ->
   Hdr.version (header_read e o st) = KORRA_PROTOCOL_VERSION ->
   Hdr.payload_size (header_read e o st) > 0 ->
   malloc_got e o st <> NULL ->
   recv_ret (payload_got e o st) <> Hdr.payload_size (header_read e o st) ->
   let closed := recv_ret (payload_got e o st) =? 0 in
   receive_ret r = -1
   /\ is_connected (transport_socket (receive_state r))
      = (if closed then false else true)
   /\ socket_fd (transport_socket (receive_state r))
      = socket_fd (transport_socket st)
   /\ is_server (transport_socket (receive_state r))
      = is_server (transport_socket st)
   /\ heap (receive_state r) = delete (malloc_got e o st) (heap st)
   /\ heap (receive_state r) !! malloc_got e o st = None
   /\ receive_message r =
        {| Msg.msg_type := Hdr.msg_type (header_read e o st);
           Msg.payload_size := Hdr.payload_size (header_read e o st);
           Msg.payload := NULL |}
   /\ r.2 = [ev (header_call st) (header_got o st);
             ev (malloc_call e o st) (malloc_got e o st);
             ev (payload_call e o st) (payload_got e o st);
             ev (stderr (if closed then log_closed_during_payload
                         else log_recv_payload_failed)) tt;
             ev (free (malloc_got e o st)) tt]).
Proof.
  intros Hconn r. subst r. split.
  - intros Hzero.
    unfold transport_receive. rewrite Hconn. cbn [negb].
    step_run. fold (header_call st). fold (header_got o st).
    rewrite Hzero. cbn [Z.eqb sizeof_header negb].
    do 2 step_run.
    cbn [receive_ret receive_state receive_message fst snd].
    repeat split.
  - intros Hlen Hmagic Hversion Hsize Hptr Hshort closed.
    unfold transport_receive. rewrite Hconn. cbn [negb].
    step_run. fold (header_call st). fold (header_got o st).
    rewrite Hlen. cbn [Z.eqb sizeof_header Pos.eqb negb].
    fold (header_read e o st).
    rewrite Hmagic, Hversion. cbn [Z.eqb KORRA_MSG_MAGIC
      KORRA_PROTOCOL_VERSION Pos.eqb negb].
    replace (Hdr.payload_size (header_read e o st) >? 0) with true
      by (symmetry; apply Z.gtb_lt; lia).
    step_run. fold (malloc_call e o st). fold (malloc_got e o st).
    replace (malloc_got e o st =? NULL) with false
      by (symmetry; now apply Z.eqb_neq).
    step_run. fold (payload_call e o st). fold (payload_got e o st).
    replace (recv_ret (payload_got e o st)
             =? Hdr.payload_size (header_read e o st)) with false
      by (symmetry; now apply Z.eqb_neq).
    cbn [negb]. fold closed.
    assert (Hheap : forall x y : list byte,
      delete (malloc_got e o st)
        (<[malloc_got e o st := x]> (<[malloc_got e o st := y]> (heap st)))
      = delete (malloc_got e o st) (heap st)).
    { intros x y. now rewrite !delete_insert_eq. }
    destruct closed; do 3 step_run;
      cbn [receive_ret receive_state receive_message fst snd];
      (split; [reflexivity|]);
      (split; [cbn; try assumption; reflexivity|]);
      (split; [reflexivity|]); (split; [reflexivity|]);
      (split; [cbn [set_heap set_connected heap]; apply Hheap|]);
      (split; [cbn [set_heap set_connected heap]; rewrite Hheap;
               apply lookup_delete_eq|]);
      split; reflexivity.
Qed.

Lemma short_read_reported_witness :
  (let r := run (scripted [] [Some []] []) []
                (transport_receive LittleEndian peer hello) in
   receive_ret r = -1
   /\ is_connected (transport_socket (receive_state r)) = false
   /\ receive_message r = hello)
  /\
  (let r := run (scripted [] [Some good_header; Some []] [8192]) []
                (transport_receive LittleEndian peer blank) in
   receive_ret r = -1
   /\ is_connected (transport_socket (receive_state r)) = false
   /\ heap (receive_state r) !! 8192 = None
   /\ Msg.payload (receive_message r) = NULL)
  /\
  (let r := run (scripted [] [Some good_header; Some [x68; x65]] [8192]) []
                (transport_receive LittleEndian peer blank) in
   receive_ret r = -1
   /\ is_connected (transport_socket (receive_state r)) = true
   /\ heap (receive_state r) !! 8192 = None
   /\ Msg.payload (receive_message r) = NULL).
Proof.
  split; [|split].
  - destruct (proj1 (short_read_reported LittleEndian
                       (scripted [] [Some []] []) peer hello eq_refl)
                    eq_refl)
      as (H1 & H2 & _ & _ & _ & H3 & _).
    repeat split; assumption.
  - pose proof (proj2 (short_read_reported LittleEndian
                         (scripted [] [Some good_header; Some []] [8192])
                         peer blank eq_refl)
                      ltac:(vm_compute; congruence)
                      ltac:(vm_compute; congruence)
                      ltac:(vm_compute; congruence)
                      ltac:(vm_compute; congruence)
                      ltac:(vm_compute; congruence)
                      ltac:(vm_compute; congruence))
      as (H1 & H2 & _ & _ & _ & H3 & H4 & _).
    split; [exact H1|]. split; [exact H2|]. split; [exact H3|].
    cbv zeta. now rewrite H4.
  - pose proof (proj2 (short_read_reported LittleEndian
                         (scripted [] [Some good_header; Some [x68; x65]]
                                   [8192])
                         peer blank eq_refl)
                      ltac:(vm_compute; congruence)
                      ltac:(vm_compute; congruence)
                      ltac:(vm_compute; congruence)
                      ltac:(vm_compute; congruence)
                      ltac:(vm_compute; congruence)
                      ltac:(vm_compute; congruence))
      as (H1 & H2 & _ & _ & _ & H3 & H4 & _).
    split; [exact H1|]. split; [exact H2|]. split; [exact H3|].
    cbv zeta. now rewrite H4.
Defined.

(** *** Writes that fail *)

(** C9. For a connected transport, when the header [send] does not return
    12, or the payload [send] (made when [payload_size] is positive) does
    not return [payload_size], [transport_send] returns -1 and the state is
    the one it started from: [is_connected] is still true. *)
Theorem send_failure_keeps_connected (e : endianness) (o : oracle)
    (st : state) (header0 : transport_header_t)
    (message : transport_message_t) :
  is_connected (transport_socket st) = true ->
  send_header_ret e o st header0 message <> sizeof_header
    \/ (Msg.payload_size message > 0
        /\ send_payload_ret e o st header0 message
             <> Msg.payload_size message) ->
  let r := run o [] (transport_send e header0 st message) in
  send_ret r = -1
  /\ send_state r = st
  /\ is_connected (transport_socket (send_state r)) = true.
Proof.
  intros Hconn Hfail r. subst r.
  unfold transport_send. rewrite Hconn. cbn [negb].
  step_run. fold (send_header_call e st header0 message).
  fold (send_header_ret e o st header0 message).
  destruct (send_header_ret e o st header0 message =? sizeof_header) eqn:Eh;
    cbn [negb].
  2: { do 2 step_run. now cbn. }
  apply Z.eqb_eq in Eh.
  destruct Hfail as [Hh | [Hpos Hp]]; [congruence|].
  replace (Msg.payload_size message >? 0) with true
    by (symmetry; apply Z.gtb_lt; lia).
  step_run. fold (send_payload_call st message).
  fold (send_payload_ret e o st header0 message).
  replace (send_payload_ret e o st header0 message
           =? Msg.payload_size message) with false
    by (symmetry; now apply Z.eqb_neq).
  cbn [negb]. do 2 step_run. now cbn.
Qed.

Lemma send_failure_keeps_connected_witness :
  (let r := run (scripted [-1] [] []) []
                (transport_send LittleEndian zeroed_stack client hello) in
   send_ret r = -1 /\ send_state r = client
   /\ is_connected (transport_socket (send_state r)) = true)
  /\
  (let r := run (scripted [12; 3] [] []) []
                (transport_send LittleEndian zeroed_stack client hello) in
   send_ret r = -1 /\ send_state r = client
   /\ is_connected (transport_socket (send_state r)) = true).
Proof.
  split.
  - apply (send_failure_keeps_connected LittleEndian (scripted [-1] [] [])
             client zeroed_stack hello eq_refl).
    left. vm_compute. discriminate.
  - apply (send_failure_keeps_connected LittleEndian (scripted [12; 3] [] [])
             client zeroed_stack hello eq_refl).
    right. split; vm_compute; [reflexivity | discriminate].
Defined.

(** *** What goes on the wire *)

(** On a socket that takes every byte, a well-formed message is sent as its
    header followed at once by its payload. *)
Lemma send_all_run (e : endianness) (st : state)
    (header0 : transport_header_t) (message : transport_message_t) :
  is_connected (transport_socket st) = true ->
  let r := run send_all [] (transport_send e header0 st message) in
  r.1 = (0, st)
  /\ (message_ok (heap st) message ->
      wire_of r.2 = header_bytes e (prepare_header header0 message)
                    ++ deref (heap st) (Msg.payload message)).
Proof.
  intros Hconn r. subst r.
  unfold transport_send. rewrite Hconn. cbn [negb].
  step_run. cbn [send_all]. cbn [Z.eqb sizeof_header Pos.eqb negb].
  destruct (Msg.payload_size message >? 0) eqn:Epos.
  - step_run. cbn [send_all]. rewrite Z.eqb_refl. cbn [negb].
    do 2 step_run. split; [reflexivity|].
    intros (_ & _ & Hlen). cbn [snd wire_of map concat bytes_sent ev].
    rewrite app_nil_r. f_equal.
    + apply take_ge. rewrite length_header_bytes. reflexivity.
    + apply take_ge. lia.
  - do 2 step_run. split; [reflexivity|].
    intros (_ & _ & Hlen). cbn [snd wire_of map concat bytes_sent ev].
    rewrite app_nil_r.
    assert (Hnil : deref (heap st) (Msg.payload message) = []).
    { apply length_zero_iff_nil.
      destruct (Z.gtb_spec (Msg.payload_size message) 0); [discriminate|lia]. }
    rewrite Hnil, app_nil_r.
    apply take_ge. rewrite length_header_bytes. reflexivity.
Qed.

(** *** Round trip *)

(** C1. Let [message] be well formed on the sender's heap ([payload_size]
    is the length of its payload), sent on a socket that takes every byte,
    and let the bytes that went on the wire be read by [transport_receive]
    on a host of the same byte order, from a stream that delivers them and
    with an allocator that returns a block.  Both calls return 0 and the
    message received has the same [msg_type], the same [payload_size] and
    the same payload bytes. *)
Theorem roundtrip (e : endianness) (sender receiver : state)
    (header0 : transport_header_t) (message buffer : transport_message_t)
    (p : Z) :
  is_connected (transport_socket sender) = true ->
  is_connected (transport_socket receiver) = true ->
  message_ok (heap sender) message ->
  p <> NULL ->
  let sent := run send_all [] (transport_send e header0 sender message) in
  let got := run (peer_stream (wire_of sent.2) p) []
                 (transport_receive e receiver buffer) in
  send_ret sent = 0
  /\ receive_ret got = 0
  /\ Msg.msg_type (receive_message got) = Msg.msg_type message
  /\ Msg.payload_size (receive_message got) = Msg.payload_size message
  /\ deref (heap (receive_state got)) (Msg.payload (receive_message got))
     = deref (heap sender) (Msg.payload message).
Proof.
  intros Hs Hr Hok Hp sent got.
  destruct (send_all_run e sender header0 message Hs) as [Hret Hwire].
  fold sent in Hret, Hwire. specialize (Hwire Hok).
  split; [unfold send_ret; now rewrite Hret|].
  subst got. rewrite Hwire. clear sent Hret Hwire.
  set (h := prepare_header header0 message).
  set (hb := header_bytes e h).
  set (pl := deref (heap sender) (Msg.payload message)).
  assert (Hhb : length hb = 12%nat) by apply length_header_bytes.
  destruct Hok as (Ht & Hsz & Hlen). fold pl in Hlen.
  (* the reserved field travels reduced to 16 bits; it is not looked at *)
  assert (Hfields : let h' := header_of_bytes e hb in
            Hdr.magic h' = KORRA_MSG_MAGIC
            /\ Hdr.version h' = KORRA_PROTOCOL_VERSION
            /\ Hdr.msg_type h' = Msg.msg_type message
            /\ Hdr.payload_size h' = Msg.payload_size message).
  { destruct (header_layout e h) as (L0 & L4 & L5 & L6 & L8 & _).
    fold hb in L0, L4, L5, L6, L8.
    unfold header_of_bytes; cbn [Hdr.magic Hdr.version Hdr.msg_type
                                  Hdr.payload_size].
    rewrite L0, L4, L5, L8. rewrite !load_one_byte, !load_store_uint.
    subst h. cbn [prepare_header Hdr.magic Hdr.version Hdr.msg_type
                  Hdr.payload_size].
    rewrite (Z.mod_small (Msg.msg_type message)) by lia.
    rewrite (Z.mod_small (Msg.payload_size message)) by lia.
    repeat split; reflexivity. }
  destruct Hfields as (Fm & Fv & Ft & Fs).
  set (o := peer_stream (hb ++ pl) p).
  assert (Hgot : header_got o receiver = Some hb).
  { unfold header_got, header_call, o. cbn [peer_stream consumed foldr].
    rewrite drop_0. f_equal. now apply take_app_length'. }
  assert (Hread : header_read e o receiver = header_of_bytes e hb).
  { unfold header_read. now rewrite Hgot. }
  assert (Hpl : payload_got e o receiver = Some pl).
  { unfold payload_got, payload_call, malloc_call, header_call.
    rewrite Hgot, Hread, Fs. unfold o.
    cbn [peer_stream consumed foldr bytes_taken ev from_option id].
    f_equal. rewrite drop_app_length' by lia. apply take_ge. lia. }
  unfold transport_receive. rewrite Hr. cbn [negb].
  step_run. fold (header_call receiver). fold (header_got o receiver).
  fold (header_read e o receiver). rewrite Hread.
  replace (recv_ret (header_got o receiver) =? sizeof_header) with true
    by (now rewrite Hgot; cbn [recv_ret]; rewrite Hhb).
  cbn [negb]. rewrite Fm, Fv, Ft, Fs.
  cbn [Z.eqb KORRA_MSG_MAGIC KORRA_PROTOCOL_VERSION Pos.eqb negb].
  destruct (Msg.payload_size message >? 0) eqn:Epos.
  - step_run.
    assert (Hm : o [ev (header_call receiver) (header_got o receiver)]
                   (malloc (Msg.payload_size message)) = p) by reflexivity.
    rewrite Hm.
    replace (p =? NULL) with false by (symmetry; now apply Z.eqb_neq).
    step_run.
    assert (Hp2 : o [ev (header_call receiver) (header_got o receiver);
                     ev (malloc (Msg.payload_size message)) p]
                    (recv (socket_fd (transport_socket receiver))
                          (Msg.payload_size message)) = Some pl).
    { rewrite <- Hpl. unfold payload_got, payload_call, malloc_got,
        malloc_call. rewrite Hread, Fs. now rewrite Hm. }
    rewrite Hp2.
    cbn [recv_ret from_option id]. rewrite <- Hlen, Z.eqb_refl. cbn [negb].
    do 2 step_run.
    cbn [receive_ret receive_message receive_state fst snd set_payload
         set_heap heap Msg.msg_type Msg.payload_size Msg.payload].
    repeat split.
    unfold deref at 1.
    replace (p =? NULL) with false by (symmetry; now apply Z.eqb_neq).
    rewrite lookup_insert_eq. cbn [from_option id]. unfold overwrite.
    rewrite drop_ge; [apply app_nil_r|].
    rewrite length_replicate. lia.
  - do 2 step_run.
    cbn [receive_ret receive_message receive_state fst snd set_payload
         Msg.msg_type Msg.payload_size Msg.payload].
    repeat split.
    unfold deref at 1. cbn [NULL Z.eqb]. symmetry.
    apply length_zero_iff_nil.
    destruct (Z.gtb_spec (Msg.payload_size message) 0); [discriminate|lia].
Qed.

Lemma roundtrip_witness :
  let sent := run send_all [] (transport_send LittleEndian stack_residue
                                 client hello) in
  let got := run (peer_stream (wire_of sent.2) 8192) []
                 (transport_receive LittleEndian peer blank) in
  send_ret sent = 0
  /\ receive_ret got = 0
  /\ Msg.msg_type (receive_message got) = Msg.msg_type hello
  /\ Msg.payload_size (receive_message got) = Msg.payload_size hello
  /\ deref (heap (receive_state got)) (Msg.payload (receive_message got))
     = deref (heap client) (Msg.payload hello).
Proof.
  apply (roundtrip LittleEndian client peer stack_residue hello blank 8192).
  - reflexivity.
  - reflexivity.
  - repeat split; vm_compute; congruence.
  - discriminate.
Defined.

(** *** The header on the wire *)

(** The twelve bytes [transport_send] hands to the first [send], read back
    on a host of the same byte order: magic, version, type and size are the
    ones of the protocol and of the message; [reserved] is whatever the
    local held, reduced to 16 bits. *)
Lemma sent_header_fields (e : endianness) (hp : gmap Z (list byte))
    (header0 : transport_header_t) (message : transport_message_t) :
  message_ok hp message ->
  header_of_bytes e (header_bytes e (prepare_header header0 message)) =
    {| Hdr.magic := KORRA_MSG_MAGIC;
       Hdr.version := KORRA_PROTOCOL_VERSION;
       Hdr.msg_type := Msg.msg_type message;
       Hdr.reserved := Hdr.reserved header0 mod 2 ^ 16;
       Hdr.payload_size := Z.of_nat (length (deref hp (Msg.payload message))) |}.
Proof.
  intros (Ht & Hs & Hl).
  destruct (header_layout e (prepare_header header0 message))
    as (L0 & L4 & L5 & L6 & L8 & _).
  unfold header_of_bytes. rewrite L0, L4, L5, L6, L8.
  rewrite !load_one_byte, !load_store_uint.
  cbn [prepare_header Hdr.magic Hdr.version Hdr.msg_type Hdr.reserved
       Hdr.payload_size].
  rewrite (Z.mod_small (Msg.msg_type message)) by lia.
  rewrite (Z.mod_small (Msg.payload_size message)) by lia.
  now rewrite Hl.
Qed.

(** C2, at the input where it fails.  A HEARTBEAT with no payload, sent
    from a frame whose stack slot has all bits set: the frame on the wire
    has magic 0x4B525241, version 1, type 0 and size 0, and bytes 6 and 7,
    the [reserved] field, are FF FF. *)
Theorem reserved_not_cleared :
  let sent := run send_all []
                  (transport_send LittleEndian stack_residue client heartbeat) in
  send_ret sent = 0
  /\ wire_of sent.2 =
       [x41; x52; x52; x4b; x01; x00; xff; xff; x00; x00; x00; x00]
  /\ Hdr.reserved (header_of_bytes LittleEndian (wire_of sent.2)) = 0xFFFF
  /\ Hdr.reserved (header_of_bytes LittleEndian (wire_of sent.2)) <> 0.
Proof.
  vm_compute. repeat split; discriminate.
Qed.

(** *** Byte order *)

(** Against C3 as stated: on a little-endian host the four bytes at offset
    0 are 41 52 52 4B, the magic least significant byte first; network
    order is 4B 52 52 41. *)
Lemma magic_not_in_network_order :
  let sent := run send_all []
                  (transport_send LittleEndian zeroed_stack client heartbeat) in
  take 4 (wire_of sent.2) = [x41; x52; x52; x4b]
  /\ network_order 4 KORRA_MSG_MAGIC = [x4b; x52; x52; x41]
  /\ take 4 (wire_of sent.2) <> network_order 4 KORRA_MSG_MAGIC.
Proof.
  vm_compute. repeat split; discriminate.
Qed.

(** C3, amended.  The first call of a connected [transport_send] is the
    [send] of the twelve header bytes, and in them the fields of more than
    one byte (magic at offset 0, reserved at 6, payload_size at 8) are in
    the byte order of the host: network order on a big-endian host, its
    reverse on a little-endian one. *)
Theorem header_in_host_byte_order (e : endianness) (o : oracle) (st : state)
    (header0 : transport_header_t) (message : transport_message_t) :
  is_connected (transport_socket st) = true ->
  let host_order n v :=
    match e with
    | BigEndian => network_order n v
    | LittleEndian => rev (network_order n v)
    end in
  exists hb,
    head (run o [] (transport_send e header0 st message)).2 =
      Some (ev (send (socket_fd (transport_socket st)) hb sizeof_header)
               (send_header_ret e o st header0 message))
    /\ length hb = 12%nat
    /\ take 4 hb = host_order 4%nat KORRA_MSG_MAGIC
    /\ take 2 (drop 6 hb) = host_order 2%nat (Hdr.reserved header0)
    /\ take 4 (drop 8 hb) = host_order 4%nat (Msg.payload_size message).
Proof.
  intros Hconn host_order.
  exists (header_bytes e (prepare_header header0 message)).
  destruct (header_layout e (prepare_header header0 message))
    as (L0 & _ & _ & L6 & L8 & _).
  assert (Hhost : forall n v, host_order n v = store_uint e n v).
  { intros n v. subst host_order. destruct e; symmetry;
      [apply store_uint_little | apply store_uint_big]. }
  rewrite !Hhost. repeat split; try assumption.
  - unfold transport_send. rewrite Hconn. cbn [negb].
    rewrite run_call. cbn [app].
    fold (send_header_call e st header0 message).
    fold (send_header_ret e o st header0 message).
    set (t0 := [ev _ _]).
    set (k := if negb _ then _ else _).
    clearbody k.
    assert (Hpre : forall (p : io (Z * state)) (t : trace),
              exists t', (run o t p).2 = t ++ t').
    { induction p as [r|c k' IH]; intros t.
      - exists []. cbn. now rewrite app_nil_r.
      - rewrite run_call. destruct (IH (o t c) (t ++ [ev c (o t c)])) as [t' Ht'].
        exists ([ev c (o t c)] ++ t'). rewrite Ht'. now rewrite app_assoc. }
    destruct (Hpre k t0) as [t' Ht']. rewrite Ht'. reflexivity.
  - apply length_header_bytes.
Qed.

Lemma header_in_host_byte_order_witness :
  exists hb,
    head (run send_all []
              (transport_send LittleEndian zeroed_stack client hello)).2 =
      Some (ev (send 3 hb 12) 12)
    /\ length hb = 12%nat
    /\ take 4 hb = rev (network_order 4 KORRA_MSG_MAGIC)
    /\ take 2 (drop 6 hb) = rev (network_order 2 0)
    /\ take 4 (drop 8 hb) = rev (network_order 4 5).
Proof.
  apply (header_in_host_byte_order LittleEndian send_all client zeroed_stack
           hello).
  reflexivity.
Defined.

(** A frame from a little-endian host read on a big-endian one: the magic
    it reads is 0x4152524B, and the frame is rejected. *)
Example other_byte_order_rejected :
  let sent := run send_all []
                  (transport_send LittleEndian zeroed_stack client hello) in
  run (peer_stream (wire_of sent.2) 8192) []
      (transport_receive BigEndian peer blank) =
    ((-1, peer, blank),
     [ev (recv 5 12) (Some (take 12 (wire_of sent.2)));
      ev (stderr (log_invalid_magic 0x4152524B)) tt]).
Proof. vm_compute. reflexivity. Qed.

End TransportSpec.

(* ===================================================================== *)
(** ** The worker pool: order, rejection, drain *)
(* ===================================================================== *)

Module ThreadPoolSpec.
Import ThreadPool.

(** *** Submitting after shutdown *)

(** C5. When the shutdown flag is set, [thread_pool_submit] returns -1 and
    the pool it leaves (queue, head, tail, queue_size) is the pool it
    found, whether or not the queue has room; as a step of the system,
    such a submit changes nothing. *)
Theorem submit_rejected_after_shutdown (p : thread_pool_t)
    (task : thread_task_t) :
  shutdown p = true ->
  thread_pool_submit p task = SubmitDone (-1) p
  /\ forall s, pool s = p -> step (Submit task) s = Some s.
Proof.
  intros Hsd.
  assert (Hsub : thread_pool_submit p task = SubmitDone (-1) p).
  { unfold thread_pool_submit. rewrite Hsd.
    now rewrite andb_false_r. }
  split; [exact Hsub|].
  intros s Hs. cbn [step]. rewrite Hs, Hsub. cbn [Z.eqb].
  rewrite <- Hs. now destruct s.
Qed.

Lemma submit_rejected_after_shutdown_witness :
  thread_pool_submit full_pool_shut_down (job 9)
    = SubmitDone (-1) full_pool_shut_down
  /\ forall s, pool s = full_pool_shut_down -> step (Submit (job 9)) s = Some s.
Proof.
  apply (submit_rejected_after_shutdown full_pool_shut_down (job 9)).
  reflexivity.
Defined.

(** A full queue makes a submit wait while the pool runs. *)
Example submit_waits_when_full :
  thread_pool_submit
    {| queue := queue full_pool_shut_down; queue_size := MAX_QUEUE;
       head := 0; tail := 0; shutdown := false |} (job 9) = SubmitWait.
Proof. reflexivity. Qed.

Example worker_waits_when_empty : thread_worker pool_init = WorkerWait.
Proof. reflexivity. Qed.

Example worker_exits_when_drained :
  thread_worker (set_shutdown pool_init) = WorkerExit.
Proof. reflexivity. Qed.

(** *** The ring buffer *)

Ltac ring_arith :=
  unfold MAX_QUEUE, MAX_THREADS in *; Z.to_euclidean_division_equations; lia.

Lemma next_index (h : Z) :
  0 <= h < MAX_QUEUE -> Z.rem (h + 1) MAX_QUEUE = (h + 1) mod MAX_QUEUE.
Proof.
  intros Hh. apply Z.rem_mod_nonneg; unfold MAX_QUEUE in *; lia.
Qed.

Lemma slot_insert_eq (q : list thread_task_t) (i : Z) (t : thread_task_t) :
  0 <= i -> (Z.to_nat i < length q)%nat -> slot (<[Z.to_nat i := t]> q) i = t.
Proof.
  intros Hi Hlen. unfold slot. now rewrite list_lookup_insert_eq.
Qed.

Lemma slot_insert_ne (q : list thread_task_t) (i j : Z) (t : thread_task_t) :
  0 <= i -> 0 <= j -> i <> j -> slot (<[Z.to_nat i := t]> q) j = slot q j.
Proof.
  intros Hi Hj Hne. unfold slot. rewrite list_lookup_insert_ne; [reflexivity|].
  lia.
Qed.

(** Writing the slot just past the [n] pending ones appends to them. *)
Lemma pending_from_enqueue (q : list thread_task_t) (t : thread_task_t)
    (n : nat) :
  length q = Z.to_nat MAX_QUEUE ->
  forall h : Z,
    0 <= h < MAX_QUEUE -> Z.of_nat n < MAX_QUEUE ->
    pending_from
      (<[Z.to_nat ((h + Z.of_nat n) mod MAX_QUEUE) := t]> q) h (S n)
    = pending_from q h n ++ [t].
Proof.
  intros Hlen. induction n as [|n IH]; intros h Hh Hn.
  - cbn [pending_from app]. f_equal.
    replace ((h + Z.of_nat 0) mod MAX_QUEUE) with h by ring_arith.
    apply slot_insert_eq; [lia|]. rewrite Hlen. unfold MAX_QUEUE in *. lia.
  - change (pending_from ?q' h (S (S n)))
      with (slot q' h :: pending_from q' (Z.rem (h + 1) MAX_QUEUE) (S n)).
    change (pending_from q h (S n))
      with (slot q h :: pending_from q (Z.rem (h + 1) MAX_QUEUE) n).
    rewrite next_index by assumption.
    cbn [app]. f_equal.
    + apply slot_insert_ne; [ring_arith | lia | ring_arith].
    + replace ((h + Z.of_nat (S n)) mod MAX_QUEUE)
        with (((h + 1) mod MAX_QUEUE + Z.of_nat n) mod MAX_QUEUE)
        by ring_arith.
      apply IH; ring_arith.
Qed.

Lemma ring_ok_init : ring_ok pool_init.
Proof.
  unfold ring_ok, pool_init. cbn [queue head queue_size tail].
  rewrite length_replicate. repeat split; unfold MAX_QUEUE; lia.
Qed.

(** A submit that goes through keeps the ring and appends to the pending
    tasks. *)
Lemma submit_accepted (p p' : thread_pool_t) (task : thread_task_t) :
  ring_ok p ->
  thread_pool_submit p task = SubmitDone 0 p' ->
  ring_ok p' /\ pending p' = pending p ++ [task]
  /\ shutdown p = false /\ shutdown p' = false.
Proof.
  intros (Hlen & Hh & Hs & Ht). unfold thread_pool_submit.
  destruct (queue_size p =? MAX_QUEUE) eqn:Efull;
    destruct (shutdown p) eqn:Esd; cbn [andb negb]; try discriminate.
  intros [= <-]. apply Z.eqb_neq in Efull.
  split; [|split; [|split; reflexivity]].
  - unfold ring_ok. cbn [queue head queue_size tail].
    rewrite length_insert.
    split; [assumption|]. split; [assumption|]. split; [lia|].
    rewrite Ht, next_index by ring_arith. ring_arith.
  - unfold pending. cbn [queue head queue_size].
    replace (Z.to_nat (queue_size p + 1)) with (S (Z.to_nat (queue_size p)))
      by lia.
    rewrite Ht.
    rewrite <- (Z2Nat.id (queue_size p)) at 1 by lia.
    apply pending_from_enqueue; [assumption | assumption | lia].
Qed.

(** A submit that is refused leaves the pool alone. *)
Lemma submit_refused (p p' : thread_pool_t) (task : thread_task_t) (ret : Z) :
  thread_pool_submit p task = SubmitDone ret p' ->
  ret <> 0 -> p' = p /\ ret = -1.
Proof.
  unfold thread_pool_submit.
  destruct ((queue_size p =? MAX_QUEUE) && negb (shutdown p));
    [discriminate|].
  destruct (shutdown p); intros [= <- <-]; intros Hret; [easy | congruence].
Qed.

(** A worker that takes a task takes the oldest pending one, from the slot
    [head]; the queue was not empty. *)
Lemma worker_takes (p p' : thread_pool_t) (task : thread_task_t) :
  ring_ok p ->
  thread_worker p = WorkerTake task p' ->
  ring_ok p' /\ pending p = task :: pending p'
  /\ task = slot (queue p) (head p)
  /\ queue_size p <> 0 /\ shutdown p' = shutdown p.
Proof.
  intros (Hlen & Hh & Hs & Ht). unfold thread_worker.
  destruct (queue_size p =? 0) eqn:Eempty;
    destruct (shutdown p) eqn:Esd; cbn [andb negb]; try discriminate.
  all: intros [= <- <-]; apply Z.eqb_neq in Eempty.
  all: split; [|split; [|split; [reflexivity|split; [assumption|]]]].
  all: try (unfold ring_ok; cbn [queue head queue_size tail];
            rewrite next_index by assumption;
            split; [assumption|]; split; [ring_arith|]; split; [lia|];
            ring_arith).
  all: try (unfold pending; cbn [queue head queue_size];
            replace (Z.to_nat (queue_size p))
              with (S (Z.to_nat (queue_size p - 1))) by lia;
            reflexivity).
  all: reflexivity.
Qed.

(** A worker exits only on an empty queue with the flag set. *)
Lemma worker_exits (p : thread_pool_t) :
  thread_worker p = WorkerExit -> shutdown p = true /\ queue_size p = 0.
Proof.
  unfold thread_worker.
  destruct (queue_size p =? 0) eqn:Eempty;
    destruct (shutdown p) eqn:Esd; cbn [andb negb]; try discriminate.
  intros _. apply Z.eqb_eq in Eempty. now split.
Qed.

(** *** The workers *)

(** Changing the state of one worker moves its task in or out of the
    running ones. *)
Lemma running_insert (ws : list worker_state) (i : nat) (w w' : worker_state) :
  ws !! i = Some w ->
  running (<[i := w']> ws) ++ task_of w ≡ₚ running ws ++ task_of w'.
Proof.
  intros Hw.
  assert (Hi : (i < length ws)%nat) by (eapply lookup_lt_Some; eassumption).
  rewrite insert_take_drop by assumption.
  rewrite <- (take_drop_middle ws i w Hw) at 3.
  unfold running. rewrite !flat_map_app. cbn [flat_map].
  solve_Permutation.
Qed.

Lemma running_all_exited (ws : list worker_state) :
  (forall j, (j < length ws)%nat -> ws !! j = Some Exited) -> running ws = [].
Proof.
  induction ws as [|w ws IH]; intros Hall; [reflexivity|].
  pose proof (Hall O ltac:(cbn; lia)) as H0. cbn in H0.
  injection H0 as ->. cbn [running flat_map task_of app].
  apply IH. intros j Hj. apply (Hall (S j)). cbn. lia.
Qed.

Lemma lookup_insert_exited (ws : list worker_state) (i j : nat)
    (w : worker_state) :
  <[i := w]> ws !! j = Some Exited ->
  (i = j /\ w = Exited) \/ (i <> j /\ ws !! j = Some Exited).
Proof.
  intros H. destruct (decide (i = j)) as [->|Hne].
  - left. split; [reflexivity|].
    apply list_lookup_insert_Some in H.
    destruct H as [(_ & <- & _) | (Hne & _)]; [reflexivity|congruence].
  - right. split; [assumption|]. now rewrite list_lookup_insert_ne in H.
Qed.

(** *** Every step keeps the invariant *)

Lemma invariant_init : invariant thread_pool_init.
Proof.
  unfold invariant, thread_pool_init.
  cbn [pool workers shutter submitted dequeued executed joined_ok].
  split; [apply ring_ok_init|].
  split; [now rewrite length_replicate|].
  split; [reflexivity|].
  split; [reflexivity|].
  split; [|reflexivity].
  intros i Hi. apply lookup_replicate in Hi. now destruct Hi.
Qed.

Lemma step_invariant (a : action) (s s' : system) :
  invariant s -> step a s = Some s' -> invariant s'.
Proof.
  intros (R & L & F & P & X & J) Hstep.
  destruct a as [task | i | i | | ret | ]; cbn [step] in Hstep.
  - (* Submit *)
    destruct (thread_pool_submit (pool s) task) as [|ret p'] eqn:Esub;
      [discriminate|].
    injection Hstep as <-.
    destruct (Z.eqb_spec ret 0) as [->|Hret].
    + destruct (submit_accepted _ _ _ R Esub) as (R' & Hpend & Hsd & Hsd').
      unfold invariant, joined_ok.
      cbn [pool workers shutter submitted dequeued executed].
      split; [assumption|]. split; [assumption|].
      split; [now rewrite Hpend, F, app_assoc|].
      split; [assumption|].
      split.
      * intros i Hi. destruct (X i Hi) as [Hx _]. congruence.
      * unfold joined_ok in J.
        destruct (shutter s) as [|k|r]; [assumption| |];
          destruct J as [Hx _]; congruence.
    + destruct (submit_refused _ _ _ _ Esub Hret) as [-> _].
      unfold invariant, joined_ok.
      cbn [pool workers shutter submitted dequeued executed].
      repeat (split; [assumption|]). exact J.
  - (* WorkerTurn *)
    destruct (workers s !! i) as [[|t|]|] eqn:Ew; try discriminate.
    assert (Hi : (i < length (workers s))%nat)
      by (eapply lookup_lt_Some; eassumption).
    pose proof (running_insert (workers s) i Idle) as Hrun.
    destruct (thread_worker (pool s)) as [| |task p'] eqn:Eturn;
      [discriminate| |]; injection Hstep as <-.
    + (* exit *)
      destruct (worker_exits _ Eturn) as [Hsd Hempty].
      specialize (Hrun Exited Ew). cbn [task_of] in Hrun.
      rewrite !app_nil_r in Hrun.
      unfold invariant, joined_ok.
      cbn [pool workers shutter submitted dequeued executed].
      split; [assumption|]. split; [now rewrite length_insert|].
      split; [assumption|]. split; [now rewrite Hrun|].
      split; [intros j _; now split|].
      unfold joined_ok in J.
      destruct (shutter s) as [|k|r]; [congruence| |].
      * destruct J as (Hx & Hk & Hj). repeat split; try assumption; try lia.
        intros j Hlt. destruct (decide (i = j)) as [->|Hne].
        -- now apply list_lookup_insert_eq.
        -- rewrite list_lookup_insert_ne by assumption. now apply Hj.
      * destruct J as (Hx & Hj). split; [assumption|].
        intros Hr j Hlt. destruct (decide (i = j)) as [->|Hne].
        -- now apply list_lookup_insert_eq.
        -- rewrite list_lookup_insert_ne by assumption. now apply Hj.
    + (* take *)
      destruct (worker_takes _ _ _ R Eturn)
        as (R' & Hpend & _ & Hnonempty & Hsd).
      specialize (Hrun (Running task) Ew). cbn [task_of] in Hrun.
      rewrite app_nil_r in Hrun.
      assert (Hnone : forall j, workers s !! j = Some Exited -> False).
      { intros j Hj. destruct (X j Hj) as [_ Hz]. contradiction. }
      unfold invariant, joined_ok.
      cbn [pool workers shutter submitted dequeued executed].
      split; [assumption|]. split; [now rewrite length_insert|].
      split; [now rewrite F, Hpend, <- app_assoc|].
      split; [now rewrite Hrun, P, app_assoc|].
      split.
      * intros j Hj. apply lookup_insert_exited in Hj.
        destruct Hj as [[_ Hj] | [_ Hj]]; [discriminate|].
        destruct (Hnone j Hj).
      * unfold joined_ok in J. rewrite Hsd.
        destruct (shutter s) as [|k|r]; [assumption| |].
        -- destruct J as (Hx & Hk & Hj). repeat split; try assumption; try lia.
           intros j Hlt. destruct (Hnone j (Hj j Hlt)).
        -- destruct J as (Hx & Hj). split; [assumption|].
           intros Hr j Hlt. destruct (Hnone j (Hj Hr j Hlt)).
  - (* TaskReturns *)
    destruct (workers s !! i) as [[|task|]|] eqn:Ew; try discriminate.
    injection Hstep as <-.
    assert (Hi : (i < length (workers s))%nat)
      by (eapply lookup_lt_Some; eassumption).
    pose proof (running_insert (workers s) i (Running task) Idle Ew) as Hrun.
    cbn [task_of] in Hrun. rewrite app_nil_r in Hrun.
    assert (Hkeep : forall j, workers s !! j = Some Exited ->
                              <[i := Idle]> (workers s) !! j = Some Exited).
    { intros j Hj. rewrite list_lookup_insert_ne; [assumption|]. congruence. }
    unfold invariant, joined_ok.
    cbn [pool workers shutter submitted dequeued executed].
    split; [assumption|]. split; [now rewrite length_insert|].
    split; [assumption|].
    split; [now rewrite P, <- Hrun, <- app_assoc,
                (Permutation_app_comm [task])|].
    split.
    + intros j Hj. apply lookup_insert_exited in Hj.
      destruct Hj as [[_ Hj] | [_ Hj]]; [discriminate|]. exact (X j Hj).
    + unfold joined_ok in J.
      destruct (shutter s) as [|k|r]; [assumption| |].
      * destruct J as (Hx & Hk & Hj). repeat split; try assumption; try lia.
        intros j Hlt. apply Hkeep. now apply Hj.
      * destruct J as (Hx & Hj). split; [assumption|].
        intros Hr j Hlt. apply Hkeep. now apply Hj.
  - (* ShutdownCall *)
    unfold joined_ok in J.
    destruct (shutter s) as [|k|r]; try discriminate.
    injection Hstep as <-.
    unfold invariant, joined_ok.
    cbn [pool workers shutter submitted dequeued executed].
    split; [exact R|]. split; [assumption|]. split; [exact F|].
    split; [assumption|].
    split.
    + intros j Hj. destruct (X j Hj) as [Hx _]. congruence.
    + cbn [set_shutdown shutdown]. repeat split; unfold MAX_THREADS; lia.
  - (* Join *)
    unfold joined_ok in J.
    destruct (shutter s) as [|k|r] eqn:Esh; try discriminate.
    destruct J as (Hx & Hk & Hj).
    destruct (Z.ltb_spec k MAX_THREADS) as [Hlt|Hge]; cbn [negb] in Hstep;
      [|discriminate].
    destruct (Z.eqb_spec ret 0) as [->|Hret]; cbn [negb] in Hstep.
    + destruct (workers s !! Z.to_nat k) as [[| |]|] eqn:Ew; try discriminate.
      injection Hstep as <-.
      unfold invariant, joined_ok.
      cbn [pool workers shutter submitted dequeued executed].
      repeat (split; [assumption|]).
      repeat split; try assumption; try lia.
      intros j Hj'. destruct (decide (Z.of_nat j = k)) as [<-|Hne].
      * now rewrite Nat2Z.id in Ew.
      * apply Hj. lia.
    + injection Hstep as <-.
      unfold invariant, joined_ok.
      cbn [pool workers shutter submitted dequeued executed].
      repeat (split; [assumption|]).
      intros Hr. discriminate.
  - (* ShutdownReturn *)
    unfold joined_ok in J.
    destruct (shutter s) as [|k|r] eqn:Esh; try discriminate.
    destruct J as (Hx & Hk & Hj).
    destruct (Z.ltb_spec k MAX_THREADS) as [Hlt|Hge]; [discriminate|].
    injection Hstep as <-.
    unfold invariant, joined_ok.
    cbn [pool workers shutter submitted dequeued executed].
    repeat (split; [assumption|]).
    intros _ j Hlt. apply Hj. lia.
Qed.

Lemma exec_invariant (sched : list action) (s s' : system) :
  invariant s -> exec sched s = Some s' -> invariant s'.
Proof.
  revert s. induction sched as [|a sched IH]; intros s Hinv Hexec.
  - cbn in Hexec. now injection Hexec as <-.
  - cbn [exec] in Hexec.
    destruct (step a s) as [s1|] eqn:Estep; [|discriminate].
    eapply IH; [|eassumption]. eapply step_invariant; eassumption.
Qed.

(** *** FIFO *)

(** C4. In every state a run of the pool reaches, the tasks accepted so far
    are the tasks dequeued so far, in the same order, followed by the tasks
    still in the queue; and when a worker, whichever it is, takes a task,
    that task is the one in slot [head], it is the earliest accepted task
    not dequeued before, and it comes next in the order of dequeues. *)
Theorem fifo_dequeue (sched : list action) (s : system) :
  exec sched thread_pool_init = Some s ->
  submitted s = dequeued s ++ pending (pool s)
  /\ forall (i : nat) (s' : system) (task : thread_task_t),
       step (WorkerTurn i) s = Some s' ->
       workers s' !! i = Some (Running task) ->
       task = slot (queue (pool s)) (head (pool s))
       /\ submitted s !! length (dequeued s) = Some task
       /\ dequeued s' = dequeued s ++ [task].
Proof.
  intros Hexec.
  destruct (exec_invariant _ _ _ invariant_init Hexec)
    as (R & L & F & P & X & J).
  split; [exact F|].
  intros i s' task Hstep Hrun. cbn [step] in Hstep.
  destruct (workers s !! i) as [[|t|]|] eqn:Ew; try discriminate.
  assert (Hi : (i < length (workers s))%nat)
    by (eapply lookup_lt_Some; eassumption).
  destruct (thread_worker (pool s)) as [| |task' p'] eqn:Eturn;
    [discriminate| |]; injection Hstep as <-; cbn [workers dequeued] in *;
    rewrite list_lookup_insert_eq in Hrun by assumption;
    [discriminate|].
  injection Hrun as ->.
  destruct (worker_takes _ _ _ R Eturn) as (_ & Hpend & Hslot & _ & _).
  split; [exact Hslot|]. split; [|reflexivity].
  rewrite F, Hpend. apply list_lookup_middle. reflexivity.
Qed.

Lemma fifo_dequeue_witness :
  exec two_jobs thread_pool_init = Some two_jobs_end
  /\ submitted two_jobs_end = [job 1; job 2]
  /\ workers two_jobs_end !! 5%nat = Some (Running (job 1))
  /\ workers two_jobs_end !! 2%nat = Some (Running (job 2))
  /\ dequeued two_jobs_end = [job 1; job 2]
  /\ submitted two_jobs_end
     = dequeued two_jobs_end ++ pending (pool two_jobs_end).
Proof.
  assert (E : exec two_jobs thread_pool_init = Some two_jobs_end)
    by (vm_compute; reflexivity).
  split; [exact E|].
  repeat (split; [reflexivity|]).
  apply (fifo_dequeue two_jobs two_jobs_end E).
Defined.

End ThreadPoolSpec.

(* ===================================================================== *)
(** ** The worker pool: bounds, conservation, back-pressure *)
(* ===================================================================== *)

Module ThreadPoolMore.
Import ThreadPool ThreadPoolSpec.

Lemma length_pending_from (q : list thread_task_t) (h : Z) (n : nat) :
  length (pending_from q h n) = n.
Proof.
  revert h. induction n as [|n IH]; intros h; [reflexivity|].
  cbn [pending_from length]. now rewrite IH.
Qed.

(** X1. In every state a run reaches, [queue_size] is between 0 and
    MAX_QUEUE, [head] and [tail] index a slot of the array, [tail] is
    [queue_size] slots after [head] around the ring, the array still has
    MAX_QUEUE slots and there are MAX_THREADS workers. *)
Theorem queue_within_bounds (sched : list action) (s : system) :
  exec sched thread_pool_init = Some s ->
  0 <= queue_size (pool s) <= MAX_QUEUE
  /\ 0 <= head (pool s) < MAX_QUEUE
  /\ 0 <= tail (pool s) < MAX_QUEUE
  /\ tail (pool s) = (head (pool s) + queue_size (pool s)) mod MAX_QUEUE
  /\ length (queue (pool s)) = Z.to_nat MAX_QUEUE
  /\ length (pending (pool s)) = Z.to_nat (queue_size (pool s))
  /\ length (workers s) = Z.to_nat MAX_THREADS.
Proof.
  intros Hexec.
  destruct (exec_invariant _ _ _ invariant_init Hexec)
    as ((Hlen & Hh & Hs & Ht) & L & _).
  repeat split; try assumption; try lia.
  - rewrite Ht. ring_arith.
  - rewrite Ht. ring_arith.
  - apply length_pending_from.
Qed.

Lemma queue_within_bounds_witness :
  0 <= queue_size (pool two_jobs_end) <= MAX_QUEUE
  /\ 0 <= head (pool two_jobs_end) < MAX_QUEUE
  /\ 0 <= tail (pool two_jobs_end) < MAX_QUEUE
  /\ tail (pool two_jobs_end)
     = (head (pool two_jobs_end) + queue_size (pool two_jobs_end))
       mod MAX_QUEUE
  /\ length (queue (pool two_jobs_end)) = Z.to_nat MAX_QUEUE
  /\ length (pending (pool two_jobs_end))
     = Z.to_nat (queue_size (pool two_jobs_end))
  /\ length (workers two_jobs_end) = Z.to_nat MAX_THREADS.
Proof.
  apply (queue_within_bounds two_jobs). vm_compute. reflexivity.
Defined.

(** X2. In every state a run reaches, each accepted task is in exactly one
    place: it has been executed, or a worker is running it, or it waits in
    the queue.  No task is run twice, none is lost, none is made up. *)
Theorem tasks_conserved (sched : list action) (s : system) :
  exec sched thread_pool_init = Some s ->
  executed s ++ running (workers s) ++ pending (pool s) ≡ₚ submitted s.
Proof.
  intros Hexec.
  destruct (exec_invariant _ _ _ invariant_init Hexec)
    as (_ & _ & F & P & _).
  now rewrite F, P, app_assoc.
Qed.

Lemma tasks_conserved_witness :
  executed two_jobs_end ++ running (workers two_jobs_end)
    ++ pending (pool two_jobs_end) ≡ₚ submitted two_jobs_end.
Proof.
  apply (tasks_conserved two_jobs). vm_compute. reflexivity.
Defined.

(** Once the flag is set no step clears it, and no step accepts a task. *)
Lemma step_after_shutdown (a : action) (s s' : system) :
  shutdown (pool s) = true -> step a s = Some s' ->
  shutdown (pool s') = true /\ submitted s' = submitted s.
Proof.
  intros Hsd Hstep.
  destruct a as [task | i | i | | ret | ]; cbn [step] in Hstep.
  - unfold thread_pool_submit in Hstep. rewrite Hsd in Hstep.
    rewrite andb_false_r in Hstep. injection Hstep as <-.
    cbn [pool submitted Z.eqb]. now split.
  - destruct (workers s !! i) as [[|t|]|]; try discriminate.
    unfold thread_worker in Hstep. rewrite Hsd in Hstep.
    cbn [negb andb] in Hstep. rewrite andb_false_r in Hstep.
    destruct (queue_size (pool s) =? 0); injection Hstep as <-;
      cbn [pool submitted shutdown]; now split.
  - destruct (workers s !! i) as [[|t|]|]; try discriminate.
    injection Hstep as <-. now split.
  - destruct (shutter s); try discriminate. injection Hstep as <-.
    now split.
  - destruct (shutter s) as [|k|r]; try discriminate.
    destruct (negb (k <? MAX_THREADS)); [discriminate|].
    destruct (negb (ret =? 0)).
    + injection Hstep as <-. now split.
    + destruct (workers s !! Z.to_nat k) as [[| |]|]; try discriminate.
      injection Hstep as <-. now split.
  - destruct (shutter s) as [|k|r]; try discriminate.
    destruct (k <? MAX_THREADS); [discriminate|].
    injection Hstep as <-. now split.
Qed.

(** X3. From a state in which the shutdown flag is set, no run accepts
    another task and the flag stays set: the tasks accepted at the end are
    those accepted at the start, whatever is submitted in between. *)
Theorem nothing_accepted_after_shutdown (sched : list action)
    (s s' : system) :
  shutdown (pool s) = true ->
  exec sched s = Some s' ->
  submitted s' = submitted s /\ shutdown (pool s') = true.
Proof.
  revert s. induction sched as [|a sched IH]; intros s Hsd Hexec.
  - cbn in Hexec. injection Hexec as <-. now split.
  - cbn [exec] in Hexec.
    destruct (step a s) as [s1|] eqn:Estep; [|discriminate].
    destruct (step_after_shutdown a s s1 Hsd Estep) as [Hsd1 Hsub1].
    destruct (IH s1 Hsd1 Hexec) as [Hsub Hsd'].
    split; [congruence|assumption].
Qed.

Lemma nothing_accepted_after_shutdown_witness :
  exists s',
    exec [Submit (job 2); WorkerTurn 0; Submit (job 3); TaskReturns 0]
         shut_down_early_end = Some s'
    /\ submitted s' = [job 1]
    /\ shutdown (pool s') = true.
Proof.
  eexists. split; [vm_compute; reflexivity|].
  apply (nothing_accepted_after_shutdown
           [Submit (job 2); WorkerTurn 0; Submit (job 3); TaskReturns 0]
           shut_down_early_end);
    vm_compute; reflexivity.
Defined.

(** X4. A submit cannot go through exactly when the queue holds MAX_QUEUE
    tasks and shutdown has not been requested; and as soon as any worker
    has taken a task from such a queue, the same submit goes through and
    the task is accepted. *)
Theorem submit_blocks_until_dequeue (s : system) (task : thread_task_t) :
  (step (Submit task) s = None <->
   queue_size (pool s) = MAX_QUEUE /\ shutdown (pool s) = false)
  /\ (step (Submit task) s = None ->
      forall (i : nat) (s1 : system),
        step (WorkerTurn i) s = Some s1 ->
        exists s2,
          step (Submit task) s1 = Some s2
          /\ submitted s2 = submitted s ++ [task]
          /\ queue_size (pool s2) = MAX_QUEUE).
Proof.
  assert (Hblock : step (Submit task) s = None <->
            queue_size (pool s) = MAX_QUEUE /\ shutdown (pool s) = false).
  { cbn [step]. unfold thread_pool_submit.
    destruct (Z.eqb_spec (queue_size (pool s)) MAX_QUEUE) as [Hfull|Hroom];
      destruct (shutdown (pool s)); cbn [andb negb];
      split; try discriminate; try easy.
    all: intros [? ?]; congruence. }
  split; [exact Hblock|].
  intros Hnone i s1 Hturn. apply Hblock in Hnone. destruct Hnone as [Hfull Hsd].
  cbn [step] in Hturn.
  destruct (workers s !! i) as [[|t|]|]; try discriminate.
  unfold thread_worker in Hturn. rewrite Hfull, Hsd in Hturn.
  cbn in Hturn. injection Hturn as <-.
  cbn [step pool]. unfold thread_pool_submit.
  cbn [queue_size shutdown].
  replace (MAX_QUEUE - 1 =? MAX_QUEUE) with false by reflexivity.
  cbn [andb Z.eqb submitted pool queue_size].
  eexists. split; [reflexivity|]. split; [reflexivity|].
  cbn [pool queue_size]. lia.
Qed.

Lemma submit_blocks_until_dequeue_witness :
  step (Submit (job 2)) fill_queue_end = None
  /\ exists s1 s2,
       step (WorkerTurn 4) fill_queue_end = Some s1
       /\ step (Submit (job 2)) s1 = Some s2
       /\ submitted s2 = submitted fill_queue_end ++ [job 2].
Proof.
  pose proof (submit_blocks_until_dequeue fill_queue_end (job 2)) as [Hb Hnext].
  assert (Hnone : step (Submit (job 2)) fill_queue_end = None)
    by (apply Hb; split; reflexivity).
  split; [exact Hnone|].
  destruct (step (WorkerTurn 4) fill_queue_end) as [s1|] eqn:E1;
    [|vm_compute in E1; discriminate].
  destruct (Hnext Hnone 4%nat s1 E1) as (s2 & E2 & Hsub & _).
  exists s1, s2. repeat split; assumption.
Defined.

End ThreadPoolMore.

(* ===================================================================== *)
(** ** The worker pool: there is always a step to take *)
(* ===================================================================== *)

Module PoolProgressSpec.
Import ThreadPool ThreadPoolSpec PoolProgress.

Lemma flat_map_insert {A B : Type} (f : A -> list B) (l : list A) (i : nat)
    (x y : A) :
  l !! i = Some x ->
  (length (flat_map f (<[i := y]> l)) + length (f x))%nat
  = (length (flat_map f l) + length (f y))%nat.
Proof.
  intros Hx.
  assert (Hi : (i < length l)%nat) by (eapply lookup_lt_Some; eassumption).
  rewrite insert_take_drop by assumption.
  rewrite <- (take_drop_middle l i x Hx) at 3.
  rewrite !flat_map_app. cbn [flat_map]. rewrite !length_app. lia.
Qed.

(** Some worker runs a task, or some worker is idle, or all have exited. *)
Lemma workers_cases (ws : list worker_state) :
  (exists i t, ws !! i = Some (Running t))
  \/ (exists i, ws !! i = Some Idle)
  \/ (forall i, (i < length ws)%nat -> ws !! i = Some Exited).
Proof.
  induction ws as [|w ws IH].
  - right. right. intros i Hi. cbn in Hi. lia.
  - destruct w as [|t|].
    + right. left. now exists O.
    + left. now exists O, t.
    + destruct IH as [(i & t & H) | [(i & H) | H]].
      * left. now exists (S i), t.
      * right. left. now exists (S i).
      * right. right. intros [|i] Hi; [reflexivity|].
        apply H. cbn in Hi. lia.
Qed.

(** While shutdown has not returned, some thread can take a step that
    accepts no task and leaves less work. *)
Lemma progress (s : system) :
  invariant s -> (forall r, shutter s <> Returned r) ->
  exists a s1,
    driving a
    /\ step a s = Some s1
    /\ submitted s1 = submitted s
    /\ (shutter s1 = Returned 0
        \/ ((forall r, shutter s1 <> Returned r)
            /\ (work_left s1 < work_left s)%nat)).
Proof.
  intros (R & L & F & P & X & J) Hrun.
  destruct R as (Hlen & Hh & Hs & Ht).
  unfold joined_ok in J.
  destruct (shutter s) as [|k|r] eqn:Esh; [| |now destruct (Hrun r)].
  - (* thread_pool_shutdown has not been called *)
    exists ShutdownCall. eexists. cbn [step]. rewrite Esh.
    split; [constructor|].
    split; [reflexivity|]. split; [reflexivity|]. right.
    split; [intros r; cbn [shutter]; discriminate|].
    unfold work_left. cbn [shutter workers pool set_shutdown queue_size].
    rewrite Esh. unfold MAX_THREADS. lia.
  - destruct J as (Hsd & Hk & Hj).
    destruct (workers_cases (workers s)) as [(i & t & Hw) | [(i & Hw) | Hall]].
    + (* a task returns *)
      exists (TaskReturns i). eexists. cbn [step]. rewrite Hw.
      split; [constructor|].
      split; [reflexivity|]. split; [reflexivity|]. right.
      cbn [shutter]. split; [intros r; congruence|].
      unfold work_left. cbn [shutter workers pool]. rewrite Esh.
      pose proof (flat_map_insert task_of (workers s) i (Running t) Idle Hw)
        as H1.
      pose proof (flat_map_insert still_alive (workers s) i (Running t) Idle Hw)
        as H2.
      unfold running. cbn [task_of still_alive length] in H1, H2. lia.
    + (* an idle worker takes a task, or exits *)
      exists (WorkerTurn i). cbn [step]. rewrite Hw.
      unfold thread_worker. rewrite Hsd. rewrite andb_false_r. cbn [andb].
      destruct (Z.eqb_spec (queue_size (pool s)) 0) as [Hz|Hnz].
      * eexists. split; [constructor|].
        split; [reflexivity|]. split; [reflexivity|]. right.
        cbn [shutter]. split; [intros r; congruence|].
        unfold work_left. cbn [shutter workers pool]. rewrite Esh.
        pose proof (flat_map_insert task_of (workers s) i Idle Exited Hw)
          as H1.
        pose proof (flat_map_insert still_alive (workers s) i Idle Exited Hw)
          as H2.
        unfold running. cbn [task_of still_alive length] in H1, H2. lia.
      * eexists. split; [constructor|].
        split; [reflexivity|]. split; [reflexivity|]. right.
        cbn [shutter]. split; [intros r; congruence|].
        unfold work_left. cbn [shutter workers pool queue_size]. rewrite Esh.
        set (t := slot (queue (pool s)) (head (pool s))).
        pose proof (flat_map_insert task_of (workers s) i Idle (Running t) Hw)
          as H1.
        pose proof (flat_map_insert still_alive (workers s) i Idle
                      (Running t) Hw) as H2.
        unfold running. cbn [task_of still_alive length] in H1, H2. lia.
    + (* every worker has exited: join the next one, or return *)
      destruct (Z.ltb_spec k MAX_THREADS) as [Hlt|Hge].
      * exists (Join 0). cbn [step]. rewrite Esh.
        replace (k <? MAX_THREADS) with true by (symmetry; now apply Z.ltb_lt).
        cbn [negb Z.eqb].
        rewrite (Hall (Z.to_nat k)) by (rewrite L; lia).
        eexists. split; [constructor|].
        split; [reflexivity|]. split; [reflexivity|]. right.
        cbn [shutter]. split; [intros r; discriminate|].
        unfold work_left. cbn [shutter workers pool]. rewrite Esh. lia.
      * exists ShutdownReturn. cbn [step]. rewrite Esh.
        replace (k <? MAX_THREADS) with false
          by (symmetry; now apply Z.ltb_ge).
        eexists. split; [constructor|].
        split; [reflexivity|]. split; [reflexivity|]. now left.
Qed.

End PoolProgressSpec.

(* ===================================================================== *)
(** ** The worker pool: shutdown, and who calls it *)
(* ===================================================================== *)

Module ShutdownSpec.
Import ThreadPool ThreadPoolSpec PoolProgress PoolProgressSpec Callers.

(** A run with a caller is a run of the pool. *)
Lemma turn_is_step (a : turn) (s s' : pool_run) :
  turn_step a s = Some s' ->
  exists b, step b (sys s) = Some (sys s').
Proof.
  unfold turn_step, with_sys. intros H.
  destruct a as [task|i|i|c| |].
  - exists (Submit task).
    destruct (step (Submit task) (sys s)); [|discriminate].
    now injection H as <-.
  - exists (WorkerTurn i).
    destruct (step (WorkerTurn i) (sys s)); [|discriminate].
    now injection H as <-.
  - exists (TaskReturns i).
    destruct (inside_shutdown s i); [discriminate|].
    destruct (step (TaskReturns i) (sys s)); [|discriminate].
    now injection H as <-.
  - exists ShutdownCall.
    destruct (may_call (sys s) c); [|discriminate].
    destruct (step ShutdownCall (sys s)); [|discriminate].
    now injection H as <-.
  - destruct (shutdown_caller s) as [c|]; [|discriminate].
    destruct (shutter (sys s)) as [|k|r] eqn:Esh; try discriminate.
    exists (Join (join_returns c k)).
    destruct (step (Join (join_returns c k)) (sys s)); [|discriminate].
    now injection H as <-.
  - exists ShutdownReturn.
    destruct (step ShutdownReturn (sys s)); [|discriminate].
    now injection H as <-.
Qed.

Lemma turn_invariant (a : turn) (s s' : pool_run) :
  invariant (sys s) -> turn_step a s = Some s' -> invariant (sys s').
Proof.
  intros Hinv H. destruct (turn_is_step a s s' H) as [b Hb].
  eapply step_invariant; eassumption.
Qed.

Lemma caller_ok_start : caller_ok pool_start.
Proof. exact I. Qed.

(** The caller stays in step with the call. *)
Lemma turn_caller_ok (a : turn) (s s' : pool_run) :
  invariant (sys s) -> caller_ok s -> turn_step a s = Some s' ->
  caller_ok s'.
Proof.
  intros (_ & L & _ & _ & _ & _) Hok H.
  unfold caller_ok in *. unfold turn_step, with_sys in H.
  destruct a as [task|i|i|c| |].
  - (* thread_pool_submit *)
    cbn [step] in H.
    destruct (thread_pool_submit (pool (sys s)) task); [discriminate|].
    injection H as <-. cbn [sys shutdown_caller shutter workers]. exact Hok.
  - (* a worker at the top of its loop *)
    cbn [step] in H.
    destruct (workers (sys s) !! i) as [[|t|]|] eqn:Ew; try discriminate.
    assert (Hkeep : forall j w, workers (sys s) !! j = Some (Running w) ->
                      forall x, <[i := x]> (workers (sys s)) !! j
                                = Some (Running w)).
    { intros j w Hj x. rewrite list_lookup_insert_ne; [assumption|].
      intros ->. congruence. }
    destruct (thread_worker (pool (sys s))); [discriminate| |];
      injection H as <-; cbn [sys shutdown_caller shutter workers];
      destruct (shutdown_caller s) as [[|j]|];
      destruct (shutter (sys s)); try exact Hok;
      destruct Hok as [Hle [t Ht]]; (split; [exact Hle|]); exists t;
      now apply Hkeep.
  - (* a task returns *)
    destruct (inside_shutdown s i) eqn:Ein; [discriminate|].
    cbn [step] in H.
    destruct (workers (sys s) !! i) as [[|t|]|] eqn:Ew; try discriminate.
    injection H as <-. cbn [sys shutdown_caller shutter workers].
    unfold inside_shutdown in Ein.
    destruct (shutdown_caller s) as [[|j]|];
      destruct (shutter (sys s)); try exact Hok.
    destruct Hok as [Hle [w Hw]]. split; [exact Hle|]. exists w.
    rewrite list_lookup_insert_ne; [assumption|].
    intros ->. now rewrite Nat.eqb_refl in Ein.
  - (* thread_pool_shutdown is called *)
    destruct (may_call (sys s) c) eqn:Ecall; [|discriminate].
    cbn [step] in H.
    destruct (shutter (sys s)); try discriminate.
    injection H as <-. cbn [sys shutdown_caller shutter workers].
    destruct c as [|j]; [exact I|].
    cbn [may_call] in Ecall.
    destruct (workers (sys s) !! j) as [[|t|]|]; try discriminate.
    split; [lia|]. now exists t.
  - (* pthread_join *)
    destruct (shutdown_caller s) as [c|] eqn:Ec; [|discriminate].
    destruct (shutter (sys s)) as [|k|r] eqn:Esh; try discriminate.
    cbn [step] in H. rewrite Esh in H.
    destruct (negb (k <? MAX_THREADS)); [discriminate|].
    destruct c as [|j]; cbn [join_returns] in H.
    + cbn [Z.eqb negb] in H.
      destruct (workers (sys s) !! Z.to_nat k) as [[| |]|]; try discriminate.
      injection H as <-. cbn [sys shutdown_caller shutter]. try rewrite Ec.
      exact I.
    + destruct Hok as [Hle [t Ht]].
      destruct (Z.eqb_spec (Z.of_nat j) k) as [Heq|Hne].
      * cbn [EDEADLK Z.eqb negb] in H. injection H as <-.
        cbn [sys shutdown_caller shutter]. try rewrite Ec. reflexivity.
      * cbn [Z.eqb negb] in H.
        destruct (workers (sys s) !! Z.to_nat k) as [[| |]|];
          try discriminate.
        injection H as <-. cbn [sys shutdown_caller shutter workers].
        try rewrite Ec. split; [lia|]. now exists t.
  - (* the loop of joins is over *)
    cbn [step] in H.
    destruct (shutter (sys s)) as [|k|r] eqn:Esh; try discriminate.
    destruct (Z.ltb_spec k MAX_THREADS) as [Hlt|Hge]; [discriminate|].
    injection H as <-. cbn [sys shutdown_caller shutter].
    destruct (shutdown_caller s) as [[|j]|]; [reflexivity| |contradiction].
    destruct Hok as [Hle [t Ht]].
    apply lookup_lt_Some in Ht. rewrite L in Ht. lia.
Qed.

Lemma turn_exec_invariant (sched : list turn) (s s' : pool_run) :
  invariant (sys s) -> caller_ok s -> turn_exec sched s = Some s' ->
  invariant (sys s') /\ caller_ok s'.
Proof.
  revert s. induction sched as [|a sched IH]; intros s Hinv Hok Hexec.
  - cbn in Hexec. injection Hexec as <-. now split.
  - cbn [turn_exec] in Hexec.
    destruct (turn_step a s) as [s1|] eqn:Estep; [|discriminate].
    apply (IH s1); [| |assumption].
    + eapply turn_invariant; eassumption.
    + eapply turn_caller_ok; eassumption.
Qed.

Lemma reachable_ok (sched : list turn) (s : pool_run) :
  turn_exec sched pool_start = Some s -> invariant (sys s) /\ caller_ok s.
Proof.
  apply turn_exec_invariant; [exact invariant_init | exact caller_ok_start].
Qed.

(** Once [thread_pool_shutdown] has been called, its caller is settled. *)
Lemma caller_kept (a : turn) (s s' : pool_run) (c : caller) :
  caller_ok s -> shutdown_caller s = Some c -> turn_step a s = Some s' ->
  shutdown_caller s' = Some c.
Proof.
  intros Hok Hc H. unfold turn_step, with_sys in H.
  destruct a as [task|i|i|c'| |].
  - destruct (step (Submit task) (sys s)); [|discriminate].
    now injection H as <-.
  - destruct (step (WorkerTurn i) (sys s)); [|discriminate].
    now injection H as <-.
  - destruct (inside_shutdown s i); [discriminate|].
    destruct (step (TaskReturns i) (sys s)); [|discriminate].
    now injection H as <-.
  - exfalso. destruct (may_call (sys s) c'); [|discriminate].
    cbn [step] in H. unfold caller_ok in Hok. rewrite Hc in Hok.
    destruct (shutter (sys s)); try discriminate.
    now destruct c.
  - rewrite Hc in H. destruct (shutter (sys s)); try discriminate.
    destruct (step _ (sys s)); [|discriminate].
    now injection H as <-.
  - destruct (step ShutdownReturn (sys s)); [|discriminate].
    now injection H as <-.
Qed.

Lemma caller_kept_exec (sched : list turn) (s s' : pool_run) (c : caller) :
  invariant (sys s) -> caller_ok s -> shutdown_caller s = Some c ->
  turn_exec sched s = Some s' -> shutdown_caller s' = Some c.
Proof.
  revert s. induction sched as [|a sched IH]; intros s Hinv Hok Hc Hexec.
  - cbn in Hexec. now injection Hexec as <-.
  - cbn [turn_exec] in Hexec.
    destruct (turn_step a s) as [s1|] eqn:Estep; [|discriminate].
    apply (IH s1); [| | |assumption].
    + eapply turn_invariant; eassumption.
    + eapply turn_caller_ok; eassumption.
    + eapply caller_kept; eassumption.
Qed.

(** When [thread_pool_shutdown] has returned 0, the work is done. *)
Lemma drained (s : system) :
  invariant s -> shutter s = Returned 0 ->
  (forall i : nat, Z.of_nat i < MAX_THREADS -> workers s !! i = Some Exited)
  /\ pending (pool s) = []
  /\ executed s ≡ₚ submitted s.
Proof.
  intros (R & L & F & P & X & J) Hret.
  unfold joined_ok in J. rewrite Hret in J.
  destruct J as [_ Hall]. specialize (Hall eq_refl).
  assert (Hpend : pending (pool s) = []).
  { destruct (X O) as [_ Hz]; [apply Hall; unfold MAX_THREADS; lia|].
    unfold pending. now rewrite Hz. }
  split; [exact Hall|]. split; [exact Hpend|].
  rewrite F, Hpend, app_nil_r, P.
  rewrite (running_all_exited (workers s)); [now rewrite app_nil_r|].
  intros j Hj. apply Hall. rewrite L in Hj. lia.
Qed.

(** Called from outside, there is always a step that accepts no task and
    leaves less work. *)
Lemma turn_progress (s : pool_run) :
  invariant (sys s) -> caller_ok s ->
  (forall i, shutdown_caller s <> Some (FromTask i)) ->
  (forall r, shutter (sys s) <> Returned r) ->
  exists a s1,
    turn_step a s = Some s1
    /\ (forall i, shutdown_caller s1 <> Some (FromTask i))
    /\ submitted (sys s1) = submitted (sys s)
    /\ (shutter (sys s1) = Returned 0
        \/ ((forall r, shutter (sys s1) <> Returned r)
            /\ (work_left (sys s1) < work_left (sys s))%nat)).
Proof.
  intros Hinv Hok Hout Hrun.
  destruct (progress (sys s) Hinv Hrun) as (b & t & Hb & Hstep & Hsub & Hnext).
  destruct Hb as [|i|i| |].
  - exists (CallsShutdown Outside).
    exists {| sys := t; shutdown_caller := Some Outside |}.
    cbn [turn_step may_call]. rewrite Hstep. cbn [option_map sys shutdown_caller].
    split; [reflexivity|]. split; [discriminate|]. now split.
  - exists (TaskEnds i).
    exists {| sys := t; shutdown_caller := shutdown_caller s |}.
    cbn [turn_step]. unfold inside_shutdown, with_sys.
    destruct (shutdown_caller s) as [[|j]|] eqn:Ec;
      [| now destruct (Hout j) |];
      destruct (shutter (sys s)); rewrite Hstep;
      cbn [option_map sys shutdown_caller];
      (split; [reflexivity|]); (split; [discriminate|]); now split.
  - exists (WorkerTurns i).
    exists {| sys := t; shutdown_caller := shutdown_caller s |}.
    cbn [turn_step]. unfold with_sys. rewrite Hstep.
    cbn [option_map sys shutdown_caller].
    split; [reflexivity|]. split; [exact Hout|]. now split.
  - exists Joins.
    exists {| sys := t; shutdown_caller := shutdown_caller s |}.
    cbn [turn_step]. unfold with_sys. unfold caller_ok in Hok.
    assert (Hj : exists k, shutter (sys s) = Joining k).
    { cbn [step] in Hstep. destruct (shutter (sys s)) as [|k|r];
        try discriminate. now exists k. }
    destruct Hj as [k Hk]. rewrite Hk in Hok. rewrite Hk.
    destruct (shutdown_caller s) as [[|j]|] eqn:Ec;
      [| now destruct (Hout j) | contradiction].
    cbn [join_returns]. rewrite Hstep.
    cbn [option_map sys shutdown_caller].
    split; [reflexivity|]. split; [discriminate|]. now split.
  - exists ShutdownReturns.
    exists {| sys := t; shutdown_caller := shutdown_caller s |}.
    cbn [turn_step]. unfold with_sys. rewrite Hstep.
    cbn [option_map sys shutdown_caller].
    split; [reflexivity|]. split; [exact Hout|]. now split.
Qed.

Lemma can_complete (n : nat) :
  forall s, (work_left (sys s) <= n)%nat ->
            invariant (sys s) -> caller_ok s ->
            (forall i, shutdown_caller s <> Some (FromTask i)) ->
            (forall r, shutter (sys s) <> Returned r) ->
  exists rest s',
    turn_exec rest s = Some s' /\ shutter (sys s') = Returned 0
    /\ submitted (sys s') = submitted (sys s).
Proof.
  induction n as [|n IH]; intros s Hn Hinv Hok Hout Hrun;
    destruct (turn_progress s Hinv Hok Hout Hrun)
      as (a & s1 & Hstep & Hout1 & Hsub & Hnext).
  - destruct Hnext as [Hret | [_ Hless]]; [|lia].
    exists [a], s1. cbn [turn_exec]. rewrite Hstep. now repeat split.
  - destruct Hnext as [Hret | [Hrun1 Hless]].
    + exists [a], s1. cbn [turn_exec]. rewrite Hstep. now repeat split.
    + destruct (IH s1 ltac:(lia) (turn_invariant a s s1 Hinv Hstep)
                  (turn_caller_ok a s s1 Hinv Hok Hstep) Hout1 Hrun1)
        as (rest & s' & Hexec & Hret & Hsub').
      exists (a :: rest), s'. cbn [turn_exec]. rewrite Hstep.
      split; [assumption|]. split; [assumption|]. congruence.
Qed.

(** *** Shutdown drains, when it returns 0 *)

(** Against C6 as stated.  Two jobs are accepted, worker 0 takes the first,
    and that job calls [thread_pool_shutdown]: the first [pthread_join] is
    on the calling thread itself and reports EDEADLK, so
    [thread_pool_shutdown] returns (-1) while worker 0 is still in its
    task, no worker has exited, the second job is still in the queue and
    nothing has been executed. *)
Lemma shutdown_returns_on_self_join :
  turn_exec task_calls_shutdown pool_start = Some task_calls_shutdown_end
  /\ shutdown_caller task_calls_shutdown_end = Some (FromTask 0)
  /\ join_returns (FromTask 0) 0 = EDEADLK
  /\ shutter (sys task_calls_shutdown_end) = Returned (-1)
  /\ workers (sys task_calls_shutdown_end) !! 0%nat = Some (Running (job 1))
  /\ workers (sys task_calls_shutdown_end) !! 1%nat = Some Idle
  /\ submitted (sys task_calls_shutdown_end) = [job 1; job 2]
  /\ pending (pool (sys task_calls_shutdown_end)) = [job 2]
  /\ executed (sys task_calls_shutdown_end) = []
  /\ ~ (forall i : nat, Z.of_nat i < MAX_THREADS ->
          workers (sys task_calls_shutdown_end) !! i = Some Exited)
  /\ ~ (executed (sys task_calls_shutdown_end)
        ≡ₚ submitted (sys task_calls_shutdown_end)).
Proof.
  do 9 (split; [vm_compute; reflexivity|]).
  split.
  - intros H. specialize (H O ltac:(unfold MAX_THREADS; lia)).
    vm_compute in H. discriminate.
  - intros H. apply Permutation_length in H. vm_compute in H. discriminate.
Qed.

(** C6, amended.  In every state a run of the pool reaches, where
    [pthread_join] fails only on the calling thread itself:
    - a worker that takes the exit does so on an empty queue with the
      shutdown flag set, and while any worker has exited the queue is
      empty;
    - when [thread_pool_shutdown] has returned 0, it was called from
      outside the pool's tasks, every worker has exited, the queue is empty
      and the tasks executed are the tasks accepted, each as many times as
      it was accepted;
    - [thread_pool_shutdown] returns 0, or (-1) when it was called from a
      task;
    - whatever [pthread_join] fails with, [thread_pool_shutdown] returns
      (-1) with that step, the workers, the queue and the tasks executed
      being what they were;
    - when [thread_pool_shutdown] was called from the task of worker [i]
      and has come to join that worker, the worker is still running the
      task, and the join makes [thread_pool_shutdown] return (-1). *)
Theorem shutdown_drains (sched : list turn) (s : pool_run) :
  turn_exec sched pool_start = Some s ->
  (forall (i : nat) (s' : pool_run),
     turn_step (WorkerTurns i) s = Some s' ->
     workers (sys s') !! i = Some Exited ->
     shutdown (pool (sys s)) = true /\ queue_size (pool (sys s)) = 0)
  /\ (forall i : nat, workers (sys s) !! i = Some Exited ->
        shutdown (pool (sys s)) = true /\ pending (pool (sys s)) = [])
  /\ (shutter (sys s) = Returned 0 ->
      shutdown_caller s = Some Outside
      /\ (forall i : nat, Z.of_nat i < MAX_THREADS ->
                          workers (sys s) !! i = Some Exited)
      /\ pending (pool (sys s)) = []
      /\ executed (sys s) ≡ₚ submitted (sys s))
  /\ (forall ret : Z, shutter (sys s) = Returned ret ->
        (ret = 0 /\ shutdown_caller s = Some Outside)
        \/ (ret = -1 /\ exists i, shutdown_caller s = Some (FromTask i)))
  /\ (forall k ret : Z,
        shutter (sys s) = Joining k -> k < MAX_THREADS -> ret <> 0 ->
        step (Join ret) (sys s) = Some (returned (-1) (sys s)))
  /\ (forall i : nat,
        shutdown_caller s = Some (FromTask i) ->
        shutter (sys s) = Joining (Z.of_nat i) ->
        (exists t, workers (sys s) !! i = Some (Running t))
        /\ turn_step Joins s
           = Some {| sys := returned (-1) (sys s);
                     shutdown_caller := Some (FromTask i) |}).
Proof.
  intros Hexec.
  destruct (reachable_ok _ _ Hexec) as [Hinv Hok].
  pose proof Hinv as (R & L & F & P & X & J).
  assert (Hfail : forall k ret : Z,
            shutter (sys s) = Joining k -> k < MAX_THREADS -> ret <> 0 ->
            step (Join ret) (sys s) = Some (returned (-1) (sys s))).
  { intros k ret Hk Hlt Hret. cbn [step]. rewrite Hk.
    replace (k <? MAX_THREADS) with true by (symmetry; now apply Z.ltb_lt).
    replace (ret =? 0) with false by (symmetry; now apply Z.eqb_neq).
    reflexivity. }
  split; [|split; [|split; [|split; [|split; [exact Hfail|]]]]].
  - intros i s' Hstep Hex. cbn [turn_step] in Hstep. unfold with_sys in Hstep.
    cbn [step] in Hstep.
    destruct (workers (sys s) !! i) as [[|t|]|] eqn:Ew; try discriminate.
    assert (Hi : (i < length (workers (sys s)))%nat)
      by (eapply lookup_lt_Some; eassumption).
    destruct (thread_worker (pool (sys s))) as [| |task' p'] eqn:Eturn;
      [discriminate| |]; injection Hstep as <-; cbn [sys workers] in Hex.
    + now apply worker_exits.
    + rewrite list_lookup_insert_eq in Hex by assumption. discriminate.
  - intros i Hi. destruct (X i Hi) as [Hsd Hz]. split; [assumption|].
    unfold pending. now rewrite Hz.
  - intros Hret. split; [|now apply drained].
    unfold caller_ok in Hok. rewrite Hret in Hok.
    destruct (shutdown_caller s) as [[|j]|]; [reflexivity|discriminate|].
    contradiction.
  - intros ret Hret. unfold caller_ok in Hok. rewrite Hret in Hok.
    destruct (shutdown_caller s) as [[|j]|]; [now left| |contradiction].
    right. split; [assumption|]. now exists j.
  - intros i Hc Hk. unfold caller_ok in Hok. rewrite Hc, Hk in Hok.
    destruct Hok as [_ [t Ht]]. split; [now exists t|].
    cbn [turn_step]. rewrite Hc, Hk. cbn [join_returns].
    rewrite Z.eqb_refl. unfold with_sys.
    rewrite (Hfail (Z.of_nat i) EDEADLK Hk).
    + cbn [option_map]. now rewrite Hc.
    + apply lookup_lt_Some in Ht. rewrite L in Ht. lia.
    + unfold EDEADLK. lia.
Qed.

Lemma shutdown_drains_witness :
  (turn_exec orderly_run pool_start = Some orderly_end
   /\ shutter (sys orderly_end) = Returned 0
   /\ shutdown_caller orderly_end = Some Outside
   /\ submitted (sys orderly_end) = [job 1; job 2; job 3]
   /\ executed (sys orderly_end) = [job 2; job 1; job 3]
   /\ executed (sys orderly_end) ≡ₚ submitted (sys orderly_end))
  /\ (turn_exec task_in_shutdown pool_start = Some task_in_shutdown_end
      /\ shutter (sys task_in_shutdown_end) = Joining 0
      /\ workers (sys task_in_shutdown_end) !! 0%nat = Some (Running (job 1))
      /\ pending (pool (sys task_in_shutdown_end)) = [job 2]
      /\ turn_step Joins task_in_shutdown_end
         = Some {| sys := returned (-1) (sys task_in_shutdown_end);
                   shutdown_caller := Some (FromTask 0) |}).
Proof.
  assert (E1 : turn_exec orderly_run pool_start = Some orderly_end)
    by (vm_compute; reflexivity).
  assert (E2 : turn_exec task_in_shutdown pool_start
               = Some task_in_shutdown_end)
    by (vm_compute; reflexivity).
  split.
  - split; [exact E1|].
    do 4 (split; [reflexivity|]).
    apply (shutdown_drains orderly_run orderly_end E1). reflexivity.
  - split; [exact E2|].
    do 3 (split; [reflexivity|]).
    apply (shutdown_drains task_in_shutdown task_in_shutdown_end E2 : _);
      reflexivity.
Defined.

(** *** Shutdown can be completed, from outside *)

(** X5. From every state a run reaches in which [thread_pool_shutdown] has
    not returned and has not been called from one of the pool's own tasks,
    there is a way to go on (the call from outside if it has not been made,
    tasks returning, workers taking their turns, joins) that ends with
    [thread_pool_shutdown] returning 0 and leaves the tasks that had been
    accepted, and no other, executed: the pool cannot get stuck.  Once it
    has been called from a task, no way to go on makes it return 0. *)
Theorem shutdown_can_complete (sched : list turn) (s : pool_run) :
  turn_exec sched pool_start = Some s ->
  ((forall i, shutdown_caller s <> Some (FromTask i)) ->
   (forall r, shutter (sys s) <> Returned r) ->
   exists rest s',
     turn_exec rest s = Some s'
     /\ shutter (sys s') = Returned 0
     /\ submitted (sys s') = submitted (sys s)
     /\ executed (sys s') ≡ₚ submitted (sys s))
  /\ (forall i, shutdown_caller s = Some (FromTask i) ->
      forall rest s', turn_exec rest s = Some s' ->
                      shutter (sys s') <> Returned 0).
Proof.
  intros Hexec.
  destruct (reachable_ok _ _ Hexec) as [Hinv Hok].
  split.
  - intros Hout Hrun.
    destruct (can_complete (work_left (sys s)) s (Nat.le_refl _) Hinv Hok
                Hout Hrun) as (rest & s' & Hrest & Hret & Hsub).
    exists rest, s'. repeat split; try assumption.
    destruct (turn_exec_invariant _ _ _ Hinv Hok Hrest) as [Hinv' _].
    rewrite <- Hsub. now apply drained.
  - intros i Hc rest s' Hrest Hret.
    pose proof (caller_kept_exec _ _ _ _ Hinv Hok Hc Hrest) as Hc'.
    destruct (turn_exec_invariant _ _ _ Hinv Hok Hrest) as [_ Hok'].
    unfold caller_ok in Hok'. rewrite Hc', Hret in Hok'. discriminate.
Qed.

Lemma shutdown_can_complete_witness :
  turn_exec busy_run pool_start = Some busy_end
  /\ shutdown_caller busy_end = None
  /\ workers (sys busy_end) !! 6%nat = Some (Running (job 1))
  /\ pending (pool (sys busy_end)) = [job 3]
  /\ exists rest s',
       turn_exec rest busy_end = Some s'
       /\ shutter (sys s') = Returned 0
       /\ submitted (sys s') = [job 1; job 2; job 3]
       /\ executed (sys s') ≡ₚ [job 1; job 2; job 3].
Proof.
  assert (E : turn_exec busy_run pool_start = Some busy_end)
    by (vm_compute; reflexivity).
  split; [exact E|]. do 3 (split; [reflexivity|]).
  apply (proj1 (shutdown_can_complete busy_run busy_end E)).
  - intros i. vm_compute. discriminate.
  - intros r. vm_compute. discriminate.
Defined.

End ShutdownSpec.

(* ===================================================================== *)
(** ** The transport: every outcome of send and receive *)
(* ===================================================================== *)

Module TransportMore.
Import Wire Transport WireFacts TransportSpec.

(** X6. Whatever the socket answers, and connected or not,
    [transport_send] hands back the state it was given (socket descriptor,
    role, [is_connected], heap) and returns 0 or -1. *)
Theorem send_leaves_state (e : endianness) (o : oracle) (st : state)
    (header0 : transport_header_t) (message : transport_message_t) :
  let r := run o [] (transport_send e header0 st message) in
  send_state r = st /\ (send_ret r = 0 \/ send_ret r = -1).
Proof.
  intros r. subst r. unfold transport_send.
  destruct (is_connected (transport_socket st)); cbn [negb].
  2: { do 2 step_run. cbn. auto. }
  step_run.
  destruct (negb (_ =? sizeof_header)).
  { do 2 step_run. cbn. auto. }
  destruct (Msg.payload_size message >? 0).
  - step_run. destruct (negb (_ =? Msg.payload_size message));
      do 2 step_run; cbn; auto.
  - do 2 step_run. cbn. auto.
Qed.

(** X7. On a connected transport, [transport_send] returns 0 exactly when
    the header [send] returned 12 and, for a positive [payload_size], the
    payload [send] returned [payload_size]; the payload is offered to
    [send] only after the header went out in full, so a failed header
    write is the only [send] of the call. *)
Theorem send_succeeds_iff (e : endianness) (o : oracle) (st : state)
    (header0 : transport_header_t) (message : transport_message_t) :
  is_connected (transport_socket st) = true ->
  let r := run o [] (transport_send e header0 st message) in
  let header_sent := send_header_ret e o st header0 message =? sizeof_header in
  (send_ret r = 0 <->
   send_header_ret e o st header0 message = sizeof_header
   /\ (Msg.payload_size message > 0 ->
       send_payload_ret e o st header0 message = Msg.payload_size message))
  /\ count_calls is_send r.2 =
       (if header_sent && (Msg.payload_size message >? 0) then 2 else 1)%nat.
Proof.
  intros Hconn r header_sent. subst r header_sent.
  unfold transport_send. rewrite Hconn. cbn [negb].
  step_run. fold (send_header_call e st header0 message).
  fold (send_header_ret e o st header0 message).
  destruct (Z.eqb_spec (send_header_ret e o st header0 message) sizeof_header)
    as [Hh|Hh]; cbn [negb andb].
  2: { do 2 step_run. cbn. split; [|reflexivity].
       split; [discriminate|]. intros [? _]. contradiction. }
  destruct (Z.gtb_spec (Msg.payload_size message) 0) as [Hpos|Hzero].
  - step_run. fold (send_payload_call st message).
    fold (send_payload_ret e o st header0 message).
    destruct (Z.eqb_spec (send_payload_ret e o st header0 message)
                         (Msg.payload_size message)) as [Hp|Hp]; cbn [negb];
      do 2 step_run; cbn; (split; [|reflexivity]).
    + split; [intros _; split; [assumption|now intros _]|reflexivity].
    + split; [discriminate|]. intros [_ H]. elim Hp. apply H. lia.
  - do 2 step_run. cbn. split; [|reflexivity].
    split; [intros _; split; [assumption|lia]|reflexivity].
Qed.

Lemma send_succeeds_iff_witness :
  let r := run (scripted [12; 5] [] []) []
               (transport_send BigEndian zeroed_stack client hello) in
  send_ret r = 0 /\ count_calls is_send r.2 = 2%nat.
Proof.
  pose proof (send_succeeds_iff BigEndian (scripted [12; 5] [] []) client
                zeroed_stack hello eq_refl) as [Hiff Hcount].
  split.
  - apply Hiff. split; [reflexivity|]. intros _. reflexivity.
  - exact Hcount.
Defined.

(** Branch by branch through [transport_receive]. *)
Ltac receive_cases e o st :=
  unfold transport_receive;
  destruct (is_connected (transport_socket st)) eqn:Hconn; cbn [negb];
  [ step_run; fold (header_call st); fold (header_got o st);
    destruct (Z.eqb_spec (recv_ret (header_got o st)) sizeof_header)
      as [Hlen|Hlen]; cbn [negb];
    [ fold (header_read e o st);
      destruct (Z.eqb_spec (Hdr.magic (header_read e o st)) KORRA_MSG_MAGIC)
        as [Hmagic|Hmagic]; cbn [negb];
      [ destruct (Z.eqb_spec (Hdr.version (header_read e o st))
                             KORRA_PROTOCOL_VERSION)
          as [Hversion|Hversion]; cbn [negb];
        [ destruct (Z.gtb_spec (Hdr.payload_size (header_read e o st)) 0)
            as [Hsize|Hsize];
          [ step_run; fold (malloc_call e o st); fold (malloc_got e o st);
            destruct (Z.eqb_spec (malloc_got e o st) NULL) as [Hptr|Hptr];
            [ do 2 step_run
            | step_run; fold (payload_call e o st);
              fold (payload_got e o st);
              destruct (Z.eqb_spec (recv_ret (payload_got e o st))
                          (Hdr.payload_size (header_read e o st)))
                as [Hfull|Hfull]; cbn [negb];
              [ do 2 step_run
              | destruct (Z.eqb_spec (recv_ret (payload_got e o st)) 0)
                  as [Hclosed|Hclosed]; do 3 step_run ] ]
          | do 2 step_run ]
        | do 2 step_run ]
      | do 2 step_run ]
    | destruct (Z.eqb_spec (recv_ret (header_got o st)) 0)
        as [Hclosed|Hclosed]; do 2 step_run ]
  | do 2 step_run ];
  cbn [receive_ret receive_state receive_message fst snd].

(** X8. When [transport_receive] returns 0, the transport was connected
    and still is, the header was read in full with the right magic and
    version, and the message carries the header's [msg_type] and
    [payload_size]; for a positive [payload_size] its [payload] is the
    block [malloc] returned, not NULL, live on the heap, and holds exactly
    the [payload_size] bytes the payload [recv] delivered. *)
Theorem receive_success (e : endianness) (o : oracle) (st : state)
    (message : transport_message_t) :
  let r := run o [] (transport_receive e st message) in
  receive_ret r = 0 ->
  is_connected (transport_socket st) = true
  /\ is_connected (transport_socket (receive_state r)) = true
  /\ recv_ret (header_got o st) = sizeof_header
  /\ Hdr.magic (header_read e o st) = KORRA_MSG_MAGIC
  /\ Hdr.version (header_read e o st) = KORRA_PROTOCOL_VERSION
  /\ Msg.msg_type (receive_message r) = Hdr.msg_type (header_read e o st)
  /\ Msg.payload_size (receive_message r)
     = Hdr.payload_size (header_read e o st)
  /\ (Hdr.payload_size (header_read e o st) > 0 ->
      Msg.payload (receive_message r) = malloc_got e o st
      /\ malloc_got e o st <> NULL
      /\ exists data,
           payload_got e o st = Some data
           /\ Z.of_nat (length data) = Hdr.payload_size (header_read e o st)
           /\ heap (receive_state r) !! malloc_got e o st = Some data).
Proof.
  intros r. subst r. receive_cases e o st; try discriminate; intros _.
  - (* payload received in full *)
    do 7 (split; [first [assumption | reflexivity]|]).
    intros _. split; [reflexivity|]. split; [assumption|].
    destruct (payload_got e o st) as [data|] eqn:Egot.
    2: { cbn [recv_ret] in Hfull. lia. }
    cbn [recv_ret] in Hfull. exists data.
    split; [reflexivity|]. split; [assumption|].
    cbn [set_heap heap from_option id]. rewrite lookup_insert_eq. f_equal.
    unfold overwrite. rewrite drop_ge; [apply app_nil_r|].
    rewrite length_replicate. lia.
  - (* no payload *)
    do 7 (split; [first [assumption | reflexivity]|]).
    intros Hpos. lia.
Qed.

Lemma receive_success_witness :
  let r := run (scripted [] [Some good_header;
                             Some [x68; x65; x6c; x6c; x6f]] [8192]) []
               (transport_receive LittleEndian peer blank) in
  receive_message r =
    {| Msg.msg_type := MSG_JOB_SUBMIT; Msg.payload_size := 5;
       Msg.payload := 8192 |}
  /\ heap (receive_state r) !! 8192 = Some [x68; x65; x6c; x6c; x6f].
Proof.
  pose proof (receive_success LittleEndian
                (scripted [] [Some good_header;
                              Some [x68; x65; x6c; x6c; x6f]] [8192])
                peer blank eq_refl) as H.
  destruct H as (_ & _ & _ & _ & _ & _ & _ & Hpayload).
  destruct (Hpayload eq_refl) as (_ & _ & data & Hgot & _ & Hheap).
  split; [reflexivity|].
  injection Hgot as <-. exact Hheap.
Defined.

(** X9. With an allocator that returns NULL or a block not already live,
    every failing [transport_receive] leaves the heap as it found it, and
    the message either untouched or with a NULL [payload]: no failure
    path leaks the payload buffer or hands back a pointer to it. *)
Theorem receive_failure_keeps_heap (e : endianness) (o : oracle) (st : state)
    (message : transport_message_t) :
  malloc_got e o st = NULL \/ heap st !! malloc_got e o st = None ->
  let r := run o [] (transport_receive e st message) in
  receive_ret r <> 0 ->
  receive_ret r = -1
  /\ heap (receive_state r) = heap st
  /\ (receive_message r = message \/ Msg.payload (receive_message r) = NULL).
Proof.
  intros Hfresh r. subst r. receive_cases e o st; intros Hret;
    try (now elim Hret);
    try (split; [reflexivity|]; split; [reflexivity|]; now left).
  - (* malloc failed *)
    split; [reflexivity|]. split; [reflexivity|]. right. exact Hptr.
  - (* the peer closed during the payload *)
    destruct Hfresh as [Hnull|Hnone]; [contradiction|].
    split; [reflexivity|]. split; [|now right].
    cbn [set_heap set_connected heap]. rewrite !delete_insert_eq.
    now apply delete_id.
  - (* the payload came short *)
    destruct Hfresh as [Hnull|Hnone]; [contradiction|].
    split; [reflexivity|]. split; [|now right].
    cbn [set_heap set_connected heap]. rewrite !delete_insert_eq.
    now apply delete_id.
Qed.

Lemma receive_failure_keeps_heap_witness :
  let r := run (scripted [] [Some good_header; Some [x68; x65]] [8192]) []
               (transport_receive LittleEndian client hello) in
  receive_ret r = -1
  /\ heap (receive_state r) = heap client
  /\ (receive_message r = hello \/ Msg.payload (receive_message r) = NULL).
Proof.
  apply (receive_failure_keeps_heap LittleEndian
           (scripted [] [Some good_header; Some [x68; x65]] [8192])
           client hello).
  - right. reflexivity.
  - vm_compute. discriminate.
Defined.



(** X11. A frame sent by a host of one byte order is refused by a host of
    the other: whatever the message, the receiver reads the magic as
    0x4152524B, reports it, and returns -1 without allocating or reading
    the payload. *)
Theorem other_byte_order_refused (e1 e2 : endianness)
    (sender receiver : state) (header0 : transport_header_t)
    (message buffer : transport_message_t) (p : Z) :
  e1 <> e2 ->
  is_connected (transport_socket sender) = true ->
  is_connected (transport_socket receiver) = true ->
  message_ok (heap sender) message ->
  let sent := run send_all [] (transport_send e1 header0 sender message) in
  run (peer_stream (wire_of sent.2) p) []
      (transport_receive e2 receiver buffer) =
    ((-1, receiver, buffer),
     [ev (header_call receiver)
         (Some (header_bytes e1 (prepare_header header0 message)));
      ev (stderr (log_invalid_magic 0x4152524B)) tt]).
Proof.
  intros Hne Hs Hr Hok sent.
  destruct (send_all_run e1 sender header0 message Hs) as [_ Hwire].
  fold sent in Hwire. rewrite (Hwire Hok). clear sent Hwire.
  set (hb := header_bytes e1 (prepare_header header0 message)).
  set (pl := deref (heap sender) (Msg.payload message)).
  set (o := peer_stream (hb ++ pl) p).
  assert (Hhb : length hb = 12%nat) by apply length_header_bytes.
  assert (Hgot : header_got o receiver = Some hb).
  { unfold header_got, header_call, o. cbn [peer_stream consumed foldr].
    rewrite drop_0. f_equal. now apply take_app_length'. }
  assert (Hmagic : Hdr.magic (header_of_bytes e2 hb) = 0x4152524B).
  { destruct (header_layout e1 (prepare_header header0 message))
      as (L0 & _). fold hb in L0.
    unfold header_of_bytes. cbn [Hdr.magic]. rewrite L0.
    destruct e1, e2; try (now elim Hne); reflexivity. }
  unfold transport_receive. rewrite Hr. cbn [negb].
  step_run. fold (header_call receiver). fold (header_got o receiver).
  rewrite Hgot. cbn [recv_ret from_option id]. rewrite Hhb.
  change (Z.of_nat 12 =? sizeof_header) with true. cbn [negb].
  rewrite Hmagic. cbn [Z.eqb KORRA_MSG_MAGIC Pos.eqb negb].
  now do 2 step_run.
Qed.

Lemma other_byte_order_refused_witness :
  let sent := run send_all []
                  (transport_send BigEndian zeroed_stack client hello) in
  run (peer_stream (wire_of sent.2) 8192) []
      (transport_receive LittleEndian peer blank) =
    ((-1, peer, blank),
     [ev (recv 5 12)
         (Some [x4b; x52; x52; x41; x01; x03; x00; x00; x00; x00; x00; x05]);
      ev (stderr (log_invalid_magic 0x4152524B)) tt]).
Proof.
  apply (other_byte_order_refused BigEndian LittleEndian client peer
           zeroed_stack hello blank 8192).
  - discriminate.
  - reflexivity.
  - reflexivity.
  - repeat split; vm_compute; congruence.
Defined.

End TransportMore.

(* ===================================================================== *)
(** ** The transport: frames one after the other *)
(* ===================================================================== *)

Module StreamsSpec.
Import Wire Transport WireFacts TransportSpec Streams.

Lemma consumed_app (t1 t2 : trace) :
  consumed (t1 ++ t2) = (consumed t1 + consumed t2)%nat.
Proof.
  unfold consumed. induction t1 as [|x t1 IH]; [reflexivity|].
  cbn [app foldr]. rewrite IH. lia.
Qed.

Lemma count_calls_app (f : event -> bool) (t1 t2 : trace) :
  count_calls f (t1 ++ t2) = (count_calls f t1 + count_calls f t2)%nat.
Proof.
  unfold count_calls, trace. now rewrite filter_app, length_app.
Qed.

Lemma count_calls_one (f : event -> bool) (x : event) :
  count_calls f [x] = if f x then 1%nat else 0%nat.
Proof.
  unfold count_calls, trace. rewrite filter_cons, filter_nil.
  destruct (f x); reflexivity.
Qed.

Lemma allocated_app (t1 t2 : trace) :
  allocated (t1 ++ t2) = allocated t1 + allocated t2.
Proof.
  unfold allocated. induction t1 as [|x t1 IH]; [reflexivity|].
  cbn [app foldr]. rewrite IH. lia.
Qed.

Lemma wire_of_app (t1 t2 : trace) :
  wire_of (t1 ++ t2) = wire_of t1 ++ wire_of t2.
Proof.
  unfold wire_of. now rewrite map_app, concat_app.
Qed.

(** [send_all] does not look at the calls made before. *)
Lemma run_send_all_at {R : Type} (p : io R) (t : trace) :
  run send_all t p = ((run send_all [] p).1, t ++ (run send_all [] p).2).
Proof.
  revert t. induction p as [r|c k IH]; intros t.
  - cbn. now rewrite app_nil_r.
  - rewrite !run_call. cbn [app].
    change (send_all t c) with (send_all [] c).
    rewrite (IH (send_all [] c) (t ++ [ev c (send_all [] c)])).
    rewrite (IH (send_all [] c) [ev c (send_all [] c)]).
    cbn [fst snd]. now rewrite <- app_assoc.
Qed.

(** One frame read from the middle of a stream: after [length pre] bytes
    have been taken, with the frame of [h] and [pl] next. *)
Lemma receive_frame_at (e : endianness) (st : state)
    (buffer : transport_message_t) (base : Z) (t : trace)
    (pre pl post : list byte) (h : transport_header_t) :
  is_connected (transport_socket st) = true ->
  consumed t = length pre ->
  Hdr.magic h = KORRA_MSG_MAGIC ->
  Hdr.version h = KORRA_PROTOCOL_VERSION ->
  0 <= Hdr.msg_type h < 2 ^ 8 ->
  Hdr.payload_size h = Z.of_nat (length pl) ->
  Hdr.payload_size h < 2 ^ 32 ->
  let wire := pre ++ header_bytes e h ++ pl ++ post in
  let p := base + allocated t in
  let some := Hdr.payload_size h >? 0 in
  p <> NULL ->
  exists t',
    run (stream_oracle wire base) t (transport_receive e st buffer) =
      ((0,
        (if some then set_heap (<[p := pl]> (heap st)) st else st),
        {| Msg.msg_type := Hdr.msg_type h;
           Msg.payload_size := Hdr.payload_size h;
           Msg.payload := if some then p else NULL |}), t')
    /\ consumed t' = (consumed t + 12 + length pl)%nat
    /\ allocated t'
       = allocated t + (if some then Hdr.payload_size h else 0).
Proof.
  intros Hconn Hpre Hmagic Hversion Htype Hsize Hmax wire p some Hp.
  set (o := stream_oracle wire base).
  set (hb := header_bytes e h).
  set (fd := socket_fd (transport_socket st)).
  assert (Hhb : length hb = 12%nat) by apply length_header_bytes.
  assert (Hfields : Hdr.magic (header_of_bytes e hb) = KORRA_MSG_MAGIC
            /\ Hdr.version (header_of_bytes e hb) = KORRA_PROTOCOL_VERSION
            /\ Hdr.msg_type (header_of_bytes e hb) = Hdr.msg_type h
            /\ Hdr.payload_size (header_of_bytes e hb) = Hdr.payload_size h).
  { destruct (header_layout e h) as (L0 & L4 & L5 & L6 & L8 & _).
    fold hb in L0, L4, L5, L6, L8.
    unfold header_of_bytes; cbn [Hdr.magic Hdr.version Hdr.msg_type
                                  Hdr.payload_size].
    rewrite L0, L4, L5, L8. rewrite !load_one_byte, !load_store_uint.
    rewrite Hmagic, Hversion.
    rewrite (Z.mod_small (Hdr.msg_type h)) by lia.
    rewrite (Z.mod_small (Hdr.payload_size h)) by lia.
    repeat split; reflexivity. }
  destruct Hfields as (Fm & Fv & Ft & Fs).
  assert (Hgot : o t (recv fd sizeof_header) = Some hb).
  { unfold o. cbn [stream_oracle]. f_equal. unfold wire.
    rewrite Hpre, drop_app_length. now apply take_app_length'. }
  set (t1 := t ++ [ev (recv fd sizeof_header) (Some hb)]).
  assert (Hc1 : consumed t1 = (length pre + 12)%nat).
  { unfold t1. rewrite consumed_app, Hpre.
    cbn [consumed foldr bytes_taken ev from_option id]. lia. }
  assert (Hm1 : allocated t1 = allocated t).
  { unfold t1. rewrite allocated_app. cbn. lia. }
  unfold transport_receive. rewrite Hconn. cbn [negb].
  step_run. fold fd. fold o. rewrite Hgot. fold t1.
  cbn [recv_ret from_option id]. rewrite Hhb.
  change (Z.of_nat 12 =? sizeof_header) with true. cbn [negb].
  rewrite Fm, Fv, Ft, Fs.
  cbn [Z.eqb KORRA_MSG_MAGIC KORRA_PROTOCOL_VERSION Pos.eqb negb].
  subst some.
  destruct (Z.gtb_spec (Hdr.payload_size h) 0) as [Hpos|Hzero].
  - step_run.
    assert (Hptr : o t1 (malloc (Hdr.payload_size h)) = p).
    { unfold o, p. cbn [stream_oracle]. now rewrite Hm1. }
    rewrite Hptr.
    replace (p =? NULL) with false by (symmetry; now apply Z.eqb_neq).
    set (t2 := t1 ++ [ev (malloc (Hdr.payload_size h)) p]).
    assert (Hc2 : consumed t2 = (length pre + 12)%nat).
    { unfold t2. rewrite consumed_app, Hc1. cbn. lia. }
    step_run. fold t2.
    assert (Hpl : o t2 (recv fd (Hdr.payload_size h)) = Some pl).
    { unfold o. cbn [stream_oracle]. f_equal. unfold wire.
      rewrite Hc2. rewrite <- drop_drop, drop_app_length.
      rewrite <- Hhb, drop_app_length.
      apply take_app_length'. lia. }
    rewrite Hpl. cbn [recv_ret from_option id].
    rewrite <- Hsize, Z.eqb_refl. cbn [negb].
    do 2 step_run. eexists. split; [|split].
    + f_equal. f_equal. f_equal.
      unfold set_heap. cbn [heap transport_socket]. f_equal.
      rewrite insert_insert_eq. f_equal. unfold overwrite.
      rewrite drop_ge; [apply app_nil_r|]. rewrite length_replicate. lia.
    + unfold t2, t1. rewrite !consumed_app, Hpre.
      cbn [consumed foldr bytes_taken ev from_option id]. lia.
    + unfold t2, t1. rewrite !allocated_app.
      cbn [allocated foldr bytes_allocated projT1 ev]. lia.
  - do 2 step_run. eexists. split; [reflexivity|split].
    + unfold t1. rewrite !consumed_app, Hpre.
      assert (length pl = O) by lia.
      cbn [consumed foldr bytes_taken ev from_option id]. lia.
    + unfold t1. rewrite !allocated_app.
      cbn [allocated foldr bytes_allocated projT1 ev]. lia.
Qed.

(** X12. Two well-formed messages sent one after the other, on a socket
    that takes every byte, are received by two calls of
    [transport_receive] on the other end (same byte order, an allocator
    whose blocks do not overlap) in the order they were sent, each with
    its own type, size and payload bytes; the block of the second payload
    starts past the end of the first, and the payload of the first is
    still intact after the second has been received.  A frame ends where
    its header says, so the next header is read from the right place. *)
Theorem frames_received_in_order (e : endianness) (sender receiver : state)
    (h1 h2 : transport_header_t) (m1 m2 b1 b2 : transport_message_t)
    (base : Z) :
  is_connected (transport_socket sender) = true ->
  is_connected (transport_socket receiver) = true ->
  message_ok (heap sender) m1 ->
  message_ok (heap sender) m2 ->
  0 < base ->
  let s1 := run send_all [] (transport_send e h1 sender m1) in
  let s2 := run send_all s1.2 (transport_send e h2 (send_state s1) m2) in
  let o := stream_oracle (wire_of s2.2) base in
  let r1 := run o [] (transport_receive e receiver b1) in
  let r2 := run o r1.2 (transport_receive e (receive_state r1) b2) in
  receive_ret r1 = 0 /\ receive_ret r2 = 0
  /\ same_message (heap (receive_state r1)) (receive_message r1)
                  (heap sender) m1
  /\ same_message (heap (receive_state r2)) (receive_message r2)
                  (heap sender) m2
  /\ (Msg.payload_size m1 > 0 -> Msg.payload_size m2 > 0 ->
      Msg.payload (receive_message r1) + Msg.payload_size m1
      <= Msg.payload (receive_message r2))
  /\ same_message (heap (receive_state r2)) (receive_message r1)
                  (heap sender) m1.
Proof.
  intros Hs Hr Hok1 Hok2 Hbase s1 s2 o r1 r2.
  (* what was sent *)
  destruct (send_all_run e sender h1 m1 Hs) as [Hret1 Hwire1].
  fold s1 in Hret1, Hwire1. specialize (Hwire1 Hok1).
  destruct (send_all_run e sender h2 m2 Hs) as [_ Hwire2].
  specialize (Hwire2 Hok2). cbn zeta in Hwire2.
  assert (Hst1 : send_state s1 = sender)
    by (unfold send_state; now rewrite Hret1).
  assert (Hwire : wire_of s2.2 =
            [] ++ header_bytes e (prepare_header h1 m1)
               ++ deref (heap sender) (Msg.payload m1)
               ++ (header_bytes e (prepare_header h2 m2)
                   ++ deref (heap sender) (Msg.payload m2))).
  { subst s2. rewrite Hst1, run_send_all_at. cbn [snd app].
    rewrite wire_of_app, Hwire1, Hwire2. now rewrite <- app_assoc. }
  subst r2 r1 o. rewrite Hwire. clear Hwire Hwire1 Hwire2 s2 Hst1 Hret1 s1.
  set (hb1 := header_bytes e (prepare_header h1 m1)).
  set (pl1 := deref (heap sender) (Msg.payload m1)).
  set (hb2 := header_bytes e (prepare_header h2 m2)).
  set (pl2 := deref (heap sender) (Msg.payload m2)).
  destruct Hok1 as (Ht1 & Hm1 & Hl1). destruct Hok2 as (Ht2 & Hm2 & Hl2).
  fold pl1 in Hl1. fold pl2 in Hl2.
  (* the first frame *)
  destruct (receive_frame_at e receiver b1 base [] [] pl1 (hb2 ++ pl2)
              (prepare_header h1 m1) Hr eq_refl eq_refl eq_refl Ht1 Hl1 Hm1)
    as (t1 & Hrun1 & Hc1 & Hn1).
  { cbn. unfold NULL. lia. }
  fold hb1 in Hrun1.
  cbn [prepare_header Hdr.msg_type Hdr.payload_size] in Hrun1, Hn1.
  change (allocated []) with 0 in Hrun1, Hn1.
  rewrite Z.add_0_r in Hrun1. rewrite Z.add_0_l in Hn1.
  cbn [Nat.add consumed foldr] in Hrun1, Hc1.
  rewrite Hrun1. cbn [receive_ret receive_state receive_message fst snd].
  set (st1 := if Msg.payload_size m1 >? 0
              then set_heap (<[base := pl1]> (heap receiver)) receiver
              else receiver).
  (* the second frame *)
  assert (Hr1 : is_connected (transport_socket st1) = true).
  { unfold st1. destruct (Msg.payload_size m1 >? 0); assumption. }
  assert (Hc1' : consumed t1 = length (hb1 ++ pl1)).
  { rewrite Hc1, length_app. unfold hb1. rewrite length_header_bytes.
    reflexivity. }
  assert (Hwire' : [] ++ hb1 ++ pl1 ++ hb2 ++ pl2
                   = (hb1 ++ pl1) ++ hb2 ++ pl2 ++ []).
  { cbn [app]. now rewrite app_nil_r, <- app_assoc. }
  assert (Hgrow : 0 <= allocated t1).
  { rewrite Hn1. destruct (Z.gtb_spec (Msg.payload_size m1) 0); lia. }
  destruct (receive_frame_at e st1 b2 base t1 (hb1 ++ pl1)
              pl2 [] (prepare_header h2 m2) Hr1 Hc1' eq_refl eq_refl Ht2
              Hl2 Hm2)
    as (t2 & Hrun2 & _ & _).
  { unfold NULL. lia. }
  fold hb2 in Hrun2. rewrite <- Hwire' in Hrun2.
  cbn [prepare_header Hdr.msg_type Hdr.payload_size] in Hrun2.
  rewrite Hn1 in Hrun2.
  rewrite Hrun2.
  cbn [receive_ret receive_state receive_message fst snd].
  clear Hrun1 Hrun2 Hwire' Hc1' Hr1 Hc1 Hn1 Hgrow t1 t2.
  unfold same_message.
  cbn [Msg.msg_type Msg.payload_size Msg.payload].
  assert (Hnil1 : (Msg.payload_size m1 >? 0) = false -> pl1 = []).
  { intros H. apply length_zero_iff_nil.
    destruct (Z.gtb_spec (Msg.payload_size m1) 0); [discriminate|lia]. }
  assert (Hnil2 : (Msg.payload_size m2 >? 0) = false -> pl2 = []).
  { intros H. apply length_zero_iff_nil.
    destruct (Z.gtb_spec (Msg.payload_size m2) 0); [discriminate|lia]. }
  assert (Hd : forall hp (q : Z) (x : list byte),
            0 < q -> deref (<[q := x]> hp) q = x).
  { intros hp q x Hq. unfold deref.
    replace (q =? NULL) with false
      by (symmetry; apply Z.eqb_neq; unfold NULL; lia).
    now rewrite lookup_insert_eq. }
  assert (Hd' : forall hp (q q' : Z) (x : list byte),
            q <> q' -> deref (<[q := x]> hp) q' = deref hp q').
  { intros hp q q' x Hq. unfold deref. now rewrite lookup_insert_ne. }
  split; [reflexivity|]. split; [reflexivity|].
  subst st1.
  destruct (Z.gtb_spec (Msg.payload_size m1) 0) as [P1|P1];
    destruct (Z.gtb_spec (Msg.payload_size m2) 0) as [P2|P2];
    cbn [heap set_heap];
    (split; [|split; [|split]]);
    try (intros; lia);
    repeat split;
    rewrite ?Hd by lia;
    rewrite ?(Hd' _ (base + Msg.payload_size m1) base) by lia;
    rewrite ?Hd by lia;
    try reflexivity;
    try (unfold deref; cbn [NULL Z.eqb]; symmetry; auto).
Qed.

Lemma frames_received_in_order_witness :
  let s1 := run send_all []
                (transport_send LittleEndian stack_residue client2 hello) in
  let s2 := run send_all s1.2
                (transport_send LittleEndian zeroed_stack (send_state s1)
                   ok_message) in
  let o := stream_oracle (wire_of s2.2) 8192 in
  let r1 := run o [] (transport_receive LittleEndian peer blank) in
  let r2 := run o r1.2
                (transport_receive LittleEndian (receive_state r1) blank) in
  receive_ret r1 = 0 /\ receive_ret r2 = 0
  /\ Msg.payload (receive_message r1) = 8192
  /\ Msg.payload (receive_message r2) = 8197
  /\ same_message (heap (receive_state r2)) (receive_message r2)
                  (heap client2) ok_message
  /\ same_message (heap (receive_state r2)) (receive_message r1)
                  (heap client2) hello.
Proof.
  pose proof (frames_received_in_order LittleEndian client2 peer
                stack_residue zeroed_stack hello ok_message blank blank 8192
                eq_refl eq_refl
                ltac:(repeat split; vm_compute; congruence)
                ltac:(repeat split; vm_compute; congruence)
                eq_refl) as (H1 & H2 & _ & H4 & _ & H6).
  split; [exact H1|]. split; [exact H2|].
  split; [reflexivity|]. split; [reflexivity|].
  split; [exact H4|exact H6].
Defined.

End StreamsSpec.

(* ===================================================================== *)
(** ** The transport: opening, accepting, closing *)
(* ===================================================================== *)

Module ConnectionSpec.
Import Wire Transport TransportSpec Connection.

Lemma net_run_call {R : Type} (o : net_oracle) (t : net_trace) (c : netcall)
    (k : net_answer c -> nio R) :
  net_run o t (NCall c k) = net_run o (t ++ [nev c (o t c)]) (k (o t c)).
Proof. reflexivity. Qed.

Lemma net_run_ret {R : Type} (o : net_oracle) (t : net_trace) (r : R) :
  net_run o t (NRet r) = (r, t).
Proof. reflexivity. Qed.

Ltac net_step := first [rewrite net_run_call | rewrite net_run_ret]; cbn [app].

(** Case by case through [transport_init]: each call succeeds or fails. *)
Ltac init_cases o is_server :=
  unfold transport_init; net_step; net_step;
  match goal with
  | |- context [o ?t (sys_socket ?a ?b ?c)] =>
      destruct (Z.ltb_spec (o t (sys_socket a b c)) 0) as [Hfd|Hfd]
  end;
  [ do 2 net_step
  | net_step;
    match goal with
    | |- context [o ?t (sys_setsockopt ?a ?b ?c ?d)] =>
        destruct (Z.ltb_spec (o t (sys_setsockopt a b c d)) 0) as [Hr1|Hr1]
    end;
    [ do 3 net_step
    | destruct is_server;
      [ net_step;
        match goal with
        | |- context [o ?t (sys_bind ?a ?b)] =>
            destruct (Z.ltb_spec (o t (sys_bind a b)) 0) as [Hr2|Hr2]
        end;
        [ do 3 net_step
        | net_step;
          match goal with
          | |- context [o ?t (sys_listen ?a ?b)] =>
              destruct (Z.ltb_spec (o t (sys_listen a b)) 0) as [Hr3|Hr3]
          end;
          [ do 3 net_step | do 2 net_step ] ]
      | net_step;
        match goal with
        | |- context [o ?t (sys_connect ?a ?b)] =>
            destruct (Z.ltb_spec (o t (sys_connect a b)) 0) as [Hr2|Hr2]
        end;
        [ do 3 net_step | do 2 net_step ] ] ] ].

Ltac count_failures :=
  unfold failures, closes; cbn [flat_map call_failed closed_fd nev projT1 app
                                length fst snd];
  repeat match goal with
         | H : ?x < 0 |- context [?x <? 0] =>
             replace (x <? 0) with true by (symmetry; now apply Z.ltb_lt)
         | H : 0 <= ?x |- context [?x <? 0] =>
             replace (x <? 0) with false by (symmetry; now apply Z.ltb_ge)
         end;
  cbn [app length].

(** A transport set up as a server is not connected. *)
Lemma init_server_not_connected (o : net_oracle) (port : Z)
    (is_server : bool) :
  is_server = true ->
  is_connected (net_run o [] (transport_init port is_server)).1.2 = false.
Proof.
  intros Hsrv. init_cases o is_server; try reflexivity. discriminate.
Qed.

(** X13. [transport_init] returns 0 or -1; it returns 0 exactly when none
    of its calls ([socket], [setsockopt], then [bind] and [listen], or
    [connect]) reported a failure, and it stops at the first that does.
    The role is the one asked for, and the transport ends up connected
    exactly when the call returned 0 in the client role: a server is never
    connected by [transport_init]. *)
Theorem init_outcome (o : net_oracle) (port : Z) (is_server : bool) :
  let r := net_run o [] (transport_init port is_server) in
  (r.1.1 = 0 /\ failures r.2 = 0%nat \/ r.1.1 = -1 /\ failures r.2 = 1%nat)
  /\ Transport.is_server r.1.2 = is_server
  /\ (is_connected r.1.2 = true <-> r.1.1 = 0 /\ is_server = false).
Proof.
  intros r. subst r. init_cases o is_server; cbn [fst snd Transport.is_server
    is_connected]; (split; [|split; [reflexivity|]]).
  all: try (right; split; [reflexivity|]; count_failures; reflexivity).
  all: try (left; split; [reflexivity|]; count_failures; reflexivity).
  all: try (split; [discriminate|]; intros [? ?]; discriminate).
  split; [intros _|reflexivity]. now split.
Qed.

(** A failed [transport_init] that got a descriptor has closed it. *)
Lemma init_failed_closes (o : net_oracle) (port : Z) (is_server : bool) :
  let r := net_run o [] (transport_init port is_server) in
  r.1.1 = -1 -> 0 < socket_fd r.1.2 -> closes r.2 = [socket_fd r.1.2].
Proof.
  intros r. subst r. init_cases o is_server; cbn [fst snd socket_fd];
    intros Hret Hpos; try discriminate; try lia; reflexivity.
Qed.

(** X14. [transport_init] keeps in [socket_fd] what [socket] returned.
    When it fails after [socket] has returned a descriptor, it closes that
    descriptor, once, and closes nothing else; when [socket] itself fails,
    or the call succeeds, it closes nothing. *)
Theorem init_closes_on_failure (o : net_oracle) (port : Z) (is_server : bool) :
  let r := net_run o [] (transport_init port is_server) in
  socket_fd r.1.2 = socket_got o port is_server
  /\ closes r.2 =
       if (r.1.1 =? -1) && (0 <=? socket_fd r.1.2) then [socket_fd r.1.2]
       else [].
Proof.
  intros r. subst r. unfold socket_got. init_cases o is_server;
    cbn [fst snd socket_fd]; (split; [reflexivity|]);
    count_failures; cbn [Z.eqb andb];
    repeat match goal with
           | H : 0 <= ?x |- context [0 <=? ?x] =>
               replace (0 <=? x) with true by (symmetry; now apply Z.leb_le)
           | H : ?x < 0 |- context [0 <=? ?x] =>
               replace (0 <=? x) with false by (symmetry; apply Z.leb_gt; lia)
           end;
    reflexivity.
Qed.

(** What is left of a transport that is not connected: both calls give up
    at once. *)
Lemma not_connected_no_io (e : endianness) (oio : oracle) (st : state)
    (header0 : transport_header_t) (message : transport_message_t) :
  is_connected (transport_socket st) = false ->
  run oio [] (transport_send e header0 st message)
    = ((-1, st), [ev (stderr log_cannot_send) tt])
  /\ run oio [] (transport_receive e st message)
     = ((-1, st, message), [ev (stderr log_cannot_receive) tt]).
Proof.
  intros Hc. unfold transport_send, transport_receive. rewrite Hc.
  cbn [negb]. split; now do 2 step_run.
Qed.

(** X15. In the server role the transport is not connected when
    [transport_init] returns, and [transport_accept] hands the accepted
    descriptor to its caller without touching the transport: whatever the
    calls answer, [transport_send] and [transport_receive] on that
    transport return -1 without a call on any socket. *)
Theorem server_cannot_send_or_receive (o o' : net_oracle) (oio : oracle)
    (port client_fd : Z) (e : endianness) (hp : gmap Z (list byte))
    (header0 : transport_header_t) (message : transport_message_t) :
  let init := net_run o [] (transport_init port true) in
  let acc := net_run o' [] (transport_accept init.1.2 client_fd) in
  let st := with_heap acc.1.1.2 hp in
  acc.1.1.2 = init.1.2
  /\ is_connected (transport_socket st) = false
  /\ run oio [] (transport_send e header0 st message)
     = ((-1, st), [ev (stderr log_cannot_send) tt])
  /\ run oio [] (transport_receive e st message)
     = ((-1, st, message), [ev (stderr log_cannot_receive) tt]).
Proof.
  intros init acc st.
  assert (Hinit : is_connected init.1.2 = false).
  { now apply init_server_not_connected. }
  assert (Hacc : acc.1.1.2 = init.1.2).
  { subst acc. unfold transport_accept.
    destruct (Transport.is_server init.1.2); cbn [negb].
    - net_step. destruct (_ <? 0); now do 2 net_step.
    - now do 2 net_step. }
  assert (Hst : is_connected (transport_socket st) = false).
  { subst st. cbn [with_heap transport_socket]. now rewrite Hacc. }
  split; [exact Hacc|]. split; [exact Hst|].
  now apply not_connected_no_io.
Qed.

(** X16. [transport_close] closes the descriptor when it is positive and
    not otherwise (descriptor 0 is left open), and leaves the transport
    not connected; a second [transport_close] makes no call on a
    descriptor and changes nothing; and after it [transport_send] and
    [transport_receive] return -1 without a call on any socket. *)
Theorem close_idempotent (o1 o2 : net_oracle) (oio : oracle)
    (sock : transport_socket_t) (e : endianness) (hp : gmap Z (list byte))
    (header0 : transport_header_t) (message : transport_message_t) :
  let c1 := net_run o1 [] (transport_close sock) in
  let c2 := net_run o2 [] (transport_close c1.1) in
  let st := with_heap c1.1 hp in
  closes c1.2 = (if socket_fd sock >? 0 then [socket_fd sock] else [])
  /\ is_connected c1.1 = false
  /\ c2.1 = c1.1
  /\ closes c2.2 = []
  /\ run oio [] (transport_send e header0 st message)
     = ((-1, st), [ev (stderr log_cannot_send) tt])
  /\ run oio [] (transport_receive e st message)
     = ((-1, st, message), [ev (stderr log_cannot_receive) tt]).
Proof.
  intros c1 c2 st.
  assert (H1 : closes c1.2 = (if socket_fd sock >? 0 then [socket_fd sock]
                              else [])
               /\ is_connected c1.1 = false
               /\ (socket_fd c1.1 >? 0) = false).
  { subst c1. unfold transport_close. net_step.
    destruct (Z.gtb_spec (socket_fd sock) 0) as [Hpos|Hnon].
    - do 2 net_step. repeat split.
    - net_step. cbn [fst snd socket_fd]. repeat split.
      destruct (Z.gtb_spec (socket_fd sock) 0); [lia|reflexivity]. }
  destruct H1 as (Hcl & Hconn & Hfd).
  split; [exact Hcl|]. split; [exact Hconn|].
  assert (H2 : c2.1 = c1.1 /\ closes c2.2 = []).
  { subst c2. unfold transport_close. net_step. rewrite Hfd. net_step.
    cbn [fst snd]. split; [|reflexivity].
    destruct c1.1 as [fd srv conn]. cbn in Hconn. now subst conn. }
  destruct H2 as [Hsame Hnone].
  split; [exact Hsame|]. split; [exact Hnone|].
  apply not_connected_no_io. exact Hconn.
Qed.

(** X17. After a [transport_init] that failed once [socket] had returned
    a positive descriptor, the transport still holds that descriptor,
    already closed; a [transport_close] that follows closes it a second
    time. *)
Theorem close_after_failed_init (o o' : net_oracle) (port : Z)
    (is_server : bool) :
  let init := net_run o [] (transport_init port is_server) in
  let fin := net_run o' [] (transport_close init.1.2) in
  init.1.1 = -1 ->
  socket_fd init.1.2 > 0 ->
  closes init.2 = [socket_fd init.1.2]
  /\ closes fin.2 = [socket_fd init.1.2]
  /\ socket_fd fin.1 = -1.
Proof.
  intros init fin Hret Hfd. subst fin init.
  split; [apply init_failed_closes; [assumption|lia]|].
  unfold transport_close. net_step.
  match goal with
  | |- context [socket_fd ?x >? 0] =>
      replace (socket_fd x >? 0) with true by (symmetry; apply Z.gtb_lt; lia)
  end.
  do 2 net_step. split; reflexivity.
Qed.

Lemma close_after_failed_init_witness :
  let init := net_run (all_calls_return 4 (-1)) [] (transport_init 8080 true) in
  let fin := net_run (all_calls_return 4 0) [] (transport_close init.1.2) in
  closes init.2 = [4] /\ closes fin.2 = [4] /\ socket_fd fin.1 = -1.
Proof.
  apply (close_after_failed_init (all_calls_return 4 (-1))
           (all_calls_return 4 0) 8080 true); reflexivity.
Defined.

End ConnectionSpec.

(* ===================================================================== *)
(** ** The worker pool: setting up *)
(* ===================================================================== *)

Module PoolSetupSpec.
Import ThreadPool PoolSetup.




End PoolSetupSpec.

(* ===================================================================== *)
(** ** The glue to the agent engine *)
(* ===================================================================== *)

Module RustGlueSpec.
Import RustGlue.

(** What one call of the interface forwards is sound. *)
Lemma api_step_sound (st : glue_state) (c : api_call) (i : invocation) :
  (api_step st c).2 = forwards i -> sound i.
Proof.
  destruct c as [cb | t cfg | h inp n out m | h]; cbn [api_step snd].
  - discriminate.
  - unfold create_agent.
    destruct (Z.eqb_spec (rust_agent_create st) 0); [discriminate|].
    intros [= <-]. assumption.
  - unfold execute_agent.
    destruct (Z.eqb_spec (rust_agent_execute st) 0); [discriminate|].
    destruct (Z.eqb_spec h 0); [discriminate|].
    intros [= <-]. now split.
  - unfold destroy_agent.
    destruct (Z.eqb_spec (rust_agent_destroy st) 0); [discriminate|].
    destruct (Z.eqb_spec h 0); [discriminate|].
    intros [= <-]. now split.
Qed.

(** X19. Whatever sequence of calls is made on the interface
    ([rust_ffi_init] with any callbacks, valid or not, [create_agent],
    [execute_agent] and [destroy_agent] with any arguments), from any
    state of the three pointers: no call is ever made through a NULL
    pointer, and no NULL handle is ever passed to the execute or the
    destroy callback. *)
Theorem no_null_call (st : glue_state) (cs : list api_call) :
  Forall sound (api_run st cs).2.
Proof.
  revert st. induction cs as [|c cs IH]; intros st; cbn [api_run snd].
  - constructor.
  - apply Forall_app. split; [|apply IH].
    destruct (api_step st c).2 as [v| |i] eqn:E; try constructor.
    + now apply (api_step_sound st c).
    + constructor.
Qed.

(** X20. [rust_ffi_init] stores the three callbacks before it looks at
    them: it returns 0 exactly when none is NULL, and whatever it returns
    the pointers are the ones it was given.  After a failed
    [rust_ffi_init], each wrapper whose own callback is not NULL still
    forwards to it. *)
Theorem init_stores_before_checking (callbacks : rust_ffi_callbacks_t)
    (agent_type config handle : Z) :
  let r := rust_ffi_init callbacks in
  (r.1 = 0 <-> agent_create callbacks <> 0 /\ agent_execute callbacks <> 0
               /\ agent_destroy callbacks <> 0)
  /\ (r.1 = 0 \/ r.1 = -1)
  /\ r.2 = {| rust_agent_create := agent_create callbacks;
              rust_agent_execute := agent_execute callbacks;
              rust_agent_destroy := agent_destroy callbacks |}
  /\ (agent_create callbacks <> 0 ->
      create_agent r.2 agent_type config
      = forwards (invoke_create (agent_create callbacks) agent_type config))
  /\ (agent_destroy callbacks <> 0 -> handle <> 0 ->
      destroy_agent r.2 handle
      = forwards (invoke_destroy (agent_destroy callbacks) handle)).
Proof.
  intros r. subst r. unfold rust_ffi_init.
  cbn [rust_agent_create rust_agent_execute rust_agent_destroy].
  destruct (Z.eqb_spec (agent_create callbacks) 0) as [Hc|Hc];
    destruct (Z.eqb_spec (agent_execute callbacks) 0) as [He|He];
    destruct (Z.eqb_spec (agent_destroy callbacks) 0) as [Hd|Hd];
    cbn [orb fst snd];
    (split; [split; [try discriminate; intros _; now repeat split
                    | try reflexivity; intros (? & ? & ?); contradiction]|]);
    (split; [auto|]); (split; [reflexivity|]);
    unfold create_agent, destroy_agent;
    cbn [rust_agent_create rust_agent_destroy];
    split.
  all: try (intros H; contradiction).
  all: try (intros H H'; try contradiction).
  all: try (intros H).
  all: repeat match goal with
              | H : ?x <> 0 |- context [?x =? 0] =>
                  replace (x =? 0) with false by (symmetry; now apply Z.eqb_neq)
              end;
       reflexivity.
Qed.

Lemma init_stores_before_checking_witness :
  (rust_ffi_init partial_callbacks).1 = -1
  /\ create_agent (rust_ffi_init partial_callbacks).2 100 200
     = forwards (invoke_create 4210000 100 200).
Proof.
  destruct (init_stores_before_checking partial_callbacks 100 200 300)
    as (_ & _ & _ & Hcreate & _).
  split; [reflexivity|]. apply Hcreate. discriminate.
Defined.

End RustGlueSpec.
